(** * Edge Impulse Linux SDK for Go: runner client and classification pipelines

    A shallow embedding of [runner.go] (the IPC client of the model process),
    of the audio classifier (package [audio]) and of the image classifier
    (package [image]), with the properties their specification states.

    Conventions.
    - Bytes are [Byte.byte]; the stream read from the Unix socket is a list of
      read events, one per [Read] call that returns.
    - A feature ([float64] in Go) is a [Z]: both pipelines only ever produce
      integral features below 2^24, which [float64] represents exactly.
    - [encoding/json], [net], [sync] and [image] are Go libraries, not code of
      this repository: marshalling is a parameter, the decoder's framing, the
      connection, the mutex and the colour models follow their documented
      behaviour. *)

From Stdlib Require Import ZArith QArith Lia Bool.
From Stdlib Require Import Strings.Byte Strings.String.
From stdpp Require Import base list strings gmap.

Local Open Scope Z_scope.

Abbreviation byte := Byte.byte.

(* ===================================================================== *)
(** * Part I: definitions *)
(* ===================================================================== *)

(** ** The transport *)

(** Failures a read or write on the socket can report. *)
Inductive IOErr : Type :=
| ErrEOF          (* the peer closed the stream *)
| ErrTimeout      (* the read deadline of five seconds passed *)
| ErrClosed       (* use of a connection that was closed locally *)
| ErrOther.

(** What one [Read] on the socket yields: the bytes that had arrived, or a
    failure. *)
Inductive ReadEvent : Type :=
| Data (bs : list byte)
| Fail (e : IOErr).

(** [net.Conn] as the runner sees it: what is still to be read, what was
    written so far, and whether [Close] was called on it. *)
Record Conn : Type := mkConn {
  incoming : list ReadEvent;
  outgoing : list byte;
  conn_closed : bool
}.

Definition set_incoming (c : Conn) (q : list ReadEvent) : Conn :=
  mkConn q (outgoing c) (conn_closed c).

(** [conn.Write(p)]: fails on a closed connection, else appends to the stream
    the peer reads. *)
Definition conn_write (p : list byte) (c : Conn) : Conn * option IOErr :=
  if conn_closed c then (c, Some ErrClosed)
  else (mkConn (incoming c) (outgoing c ++ p) false, None).

(** [conn.Read(p)] with [len(p) = n]: at most [n] bytes of what arrived; the
    rest of a longer arrival stays for the next read. With nothing pending the
    deadline passes. *)
Definition conn_read (n : nat) (c : Conn) : Conn * (list byte + IOErr) :=
  if conn_closed c then (c, inr ErrClosed)
  else match incoming c with
       | [] => (c, inr ErrTimeout)
       | Fail e :: q => (set_incoming c q, inr e)
       | Data bs :: q =>
           if (length bs <=? n)%nat then (set_incoming c q, inl bs)
           else (set_incoming c (Data (drop n bs) :: q), inl (take n bs))
       end.

(** [conn.Close()]: an error on the second call, which callers may ignore. *)
Definition conn_close (c : Conn) : Conn * option IOErr :=
  if conn_closed c then (c, Some ErrClosed)
  else (mkConn (incoming c) (outgoing c) true, None).

(** ** Framing of a JSON value, after the scanner of [encoding/json]

    [json.Decoder] scans the bytes it has buffered and stops right after the
    brace or bracket that closes the top-level value, without looking at the
    byte that follows. Where that is depends on the nesting depth and on
    whether the scanner is inside a string literal or after a backslash in
    one; the scanner below keeps exactly that. *)

Inductive ScanState : Type :=
| SBegin                    (* before the value: leading white space *)
| SValue (depth : nat)      (* inside [depth] open objects or arrays *)
| SString (depth : nat)     (* inside a string literal *)
| SEscape (depth : nat).    (* after a backslash in a string literal *)

Inductive StepResult : Type :=
| Continue (s : ScanState)
| EndValue
| ScanError.

Definition is_space (c : byte) : bool :=
  match c with
  | x20 | x09 | x0a | x0d => true
  | _ => false
  end.

Definition is_open (c : byte) : bool :=
  match c with x7b | x5b => true | _ => false end.      (* { [ *)

Definition is_close (c : byte) : bool :=
  match c with x7d | x5d => true | _ => false end.      (* } ] *)

Definition is_quote (c : byte) : bool :=
  match c with x22 => true | _ => false end.

Definition is_backslash (c : byte) : bool :=
  match c with x5c => true | _ => false end.

Definition scan_step (s : ScanState) (c : byte) : StepResult :=
  match s with
  | SBegin =>
      if is_space c then Continue SBegin
      else if is_open c then Continue (SValue 1)
      else ScanError
  | SValue d =>
      if is_quote c then Continue (SString d)
      else if is_open c then Continue (SValue (S d))
      else if is_close c then
        match d with
        | O => ScanError
        | S O => EndValue
        | S d' => Continue (SValue d')
        end
      else Continue (SValue d)
  | SString d =>
      if is_backslash c then Continue (SEscape d)
      else if is_quote c then Continue (SValue d)
      else Continue (SString d)
  | SEscape d => Continue (SString d)
  end.

Inductive ScanOutcome : Type :=
| Complete (n : nat)        (* the value ends after the first [n] bytes *)
| NeedMore (s : ScanState)  (* all bytes scanned, the value is still open *)
| Invalid.

(** Scanning the bytes of one refill from scanner state [s]. *)
Fixpoint scan (s : ScanState) (bs : list byte) : ScanOutcome :=
  match bs with
  | [] => NeedMore s
  | c :: bs' =>
      match scan_step s c with
      | EndValue => Complete 1
      | ScanError => Invalid
      | Continue s' =>
          match scan s' bs' with
          | Complete n => Complete (S n)
          | o => o
          end
      end
  end.

(** [j] is one JSON object or array from its first to its last byte. *)
Definition json_document (j : list byte) : Prop :=
  scan SBegin j = Complete (length j).

Inductive DecodeErr : Type :=
| DecSyntax                 (* the scanner rejected a byte *)
| DecIO (e : IOErr)         (* the refill failed before the value ended *)
| DecUnmarshal.             (* the value does not fit the response type *)

(** [Decoder.readValue]: refill from the connection until the scanner has seen
    a whole value. Returns the value's bytes and what the decoder has
    buffered beyond it ([Decoder.Buffered]). [buf] is what was scanned so
    far. *)
Fixpoint readValue (s : ScanState) (buf : list byte) (q : list ReadEvent)
  : (list byte * list byte + DecodeErr) * list ReadEvent :=
  match q with
  | [] => (inr (DecIO ErrTimeout), [])
  | Fail e :: q' => (inr (DecIO e), q')
  | Data bs :: q' =>
      match scan s bs with
      | Complete n => (inl (buf ++ take n bs, drop n bs), q')
      | Invalid => (inr DecSyntax, q')
      | NeedMore s' => readValue s' (buf ++ bs) q'
      end
  end.

(** [Decoder.Decode] up to unmarshalling, on a fresh decoder reading from the
    connection. *)
Definition decode (c : Conn) : Conn * (list byte * list byte + DecodeErr) :=
  if conn_closed c then (c, inr (DecIO ErrClosed))
  else let '(res, q) := readValue SBegin [] (incoming c) in
       (set_incoming c q, res).

(** ** The messages of [runner.go] *)

Record RunnerResponse : Type := mkRunnerResponse {
  ID : Z;
  Success : bool;
  Error : string
}.

(** The interface [runnerResponser]. *)
Class runnerResponser (R : Type) : Type :=
  runnerResponse : R -> RunnerResponse.

Record runnerHelloRequest : Type := mkHelloRequest {
  hello_ID : Z;
  Hello : Z
}.

Definition ModelType := string.
Definition ModelTypeClassification : ModelType := "classification".
Definition ModelTypeObjectDetection : ModelType := "object_detection".

Definition SensorType := string.
Definition SensorTypeUnknown : SensorType := "unknown".
Definition SensorTypeMicrophone : SensorType := "microphone".
Definition SensorTypeAccelerometer : SensorType := "accelerometer".
Definition SensorTypeCamera : SensorType := "camera".

Record ModelParameters : Type := mkModelParameters {
  mp_ModelType : ModelType;
  Sensor : Z;
  mp_SensorType : SensorType;
  IntervalMS : Q;
  Frequency : Q;
  InputFeaturesCount : nat;
  ImageInputHeight : nat;
  ImageInputWidth : nat;
  ImageChannelCount : Z;
  Labels : list string;
  LabelCount : Z;
  HasAnomaly : Q
}.

Record Project : Type := mkProject {
  DeployVersion : Z;
  project_ID : Z;
  Name : string;
  Owner : string
}.

Record runnerHelloResponse : Type := mkHelloResponse {
  hello_response : RunnerResponse;
  hello_ModelParameters : ModelParameters;
  hello_Project : Project
}.

Record RunnerClassifyRequest : Type := mkClassifyRequest {
  classify_ID : Z;
  Classify_data : list Z
}.

Record BoundingBox : Type := mkBoundingBox {
  bb_Label : string;
  bb_Value : Q;
  bb_X : Z;
  bb_Y : Z;
  bb_Width : Z;
  bb_Height : Z
}.

Record RunnerClassifyResponse : Type := mkClassifyResponse {
  classify_response : RunnerResponse;
  Classification : option (gmap string Q);
  BoundingBoxes : option (list BoundingBox);
  Anomaly : Q;
  Timing_DSP : Q;
  Timing_Classification : Q;
  Timing_Anomaly : Q
}.

#[export] Instance hello_responser : runnerResponser runnerHelloResponse :=
  hello_response.
#[export] Instance classify_responser : runnerResponser RunnerClassifyResponse :=
  classify_response.

Inductive Request : Type :=
| HelloReq (q : runnerHelloRequest)
| ClassifyReq (q : RunnerClassifyRequest).

(** [encoding/json] on the messages above: what [Encoder.Encode] writes for a
    request (the JSON text and a newline) and what unmarshalling makes of the
    bytes of one JSON value ([None]: they do not fit the type). *)
Class JSON : Type := mkJSON {
  marshal : Request -> list byte;
  unmarshal_hello : list byte -> option runnerHelloResponse;
  unmarshal_classify : list byte -> option RunnerClassifyResponse
}.

(** ** The runner process *)

Record RunnerOpts : Type := mkRunnerOpts {
  WorkDir : string;
  TraceDir : string
}.

Record RunnerProcess : Type := mkRunnerProcess {
  modelParams : ModelParameters;
  project : Project;
  opts : RunnerOpts;
  tempDir : string;
  cancel : bool;                (* is a cancel function set *)
  conn : option Conn;
  lastID : Z
}.

Definition set_conn (r : RunnerProcess) (c : Conn) : RunnerProcess :=
  mkRunnerProcess (modelParams r) (project r) (opts r) (tempDir r) (cancel r)
    (Some c) (lastID r).

(** The errors [runner.go] builds with [fmt.Errorf], by the place they come
    from. *)
Inductive RunnerError : Type :=
| ErrWritingJSON (e : IOErr)          (* writing json to model *)
| ErrReadingJSON (e : DecodeErr)      (* reading json from model *)
| ErrClassifying (msg : string)       (* classifying: the model's message *)
| ErrAbsPath
| ErrTempDir
| ErrStarting
| ErrOpeningSocket
| ErrNoSocket
| ErrHello (e : RunnerError)
| PanicNilConn.                       (* a nil [conn] is dereferenced *)

(** 64-bit two's complement wrap-around of [int64] arithmetic. *)
Definition wrap64 (z : Z) : Z :=
  (z + 2 ^ 63) mod 2 ^ 64 - 2 ^ 63.

Definition nextID (r : RunnerProcess) : RunnerProcess * Z :=
  let id := wrap64 (lastID r + 1) in
  (mkRunnerProcess (modelParams r) (project r) (opts r) (tempDir r) (cancel r)
     (conn r) id, id).

(** The second half of [transact], from [json.NewDecoder] on (lines 334 to
    350), on the connection as the write left it: decode the response, drain
    the zero byte, look at [Success]. The response is returned next to the
    error because Go fills it through a pointer also when the model reports
    a failure. *)
Definition await_response {R : Type} `{runnerResponser R}
    (unmarshal : list byte -> option R) (r : RunnerProcess) (c1 : Conn)
  : RunnerProcess * option R * option RunnerError :=
  let '(c2, dres) := decode c1 in
  match dres with
  | inr e => (set_conn r c2, None, Some (ErrReadingJSON e))
  | inl (value, buffered) =>
      match unmarshal value with
      | None => (set_conn r c2, None, Some (ErrReadingJSON DecUnmarshal))
      | Some resp =>
          (* Drain the zero byte the model writes after the JSON. *)
          let c3 := match buffered with
                    | [] => fst (conn_read 1 c2)
                    | _ :: _ => c2
                    end in
          if Success (runnerResponse resp)
          then (set_conn r c3, Some resp, None)
          else (set_conn r c3, Some resp,
                Some (ErrClassifying (Error (runnerResponse resp))))
      end
  end.

(** [transact]: one request and its response. [writeTrace] touches neither the
    connection nor the runner, and a deadline has no place in this model
    beyond [ErrTimeout]; both are left out. *)
Definition transact `{JSON} {R : Type} `{runnerResponser R}
    (unmarshal : list byte -> option R)
    (r : RunnerProcess) (id : Z) (req : Request)
  : RunnerProcess * option R * option RunnerError :=
  match conn r with
  | None => (r, None, Some PanicNilConn)
  | Some c =>
      let '(c1, werr) := conn_write (marshal req) c in
      match werr with
      | Some e => (set_conn r c1, None, Some (ErrWritingJSON e))
      | None => await_response unmarshal r c1
      end
  end.

(** [Classify], for a caller that finds the mutex free. *)
Definition Classify `{JSON} (r : RunnerProcess) (data : list Z)
  : RunnerProcess * option RunnerClassifyResponse * option RunnerError :=
  let '(r1, id) := nextID r in
  transact unmarshal_classify r1 id (ClassifyReq (mkClassifyRequest id data)).

(** What [Close] and [NewRunnerProcess] act on outside the runner: the model
    process, the temporary directories, and whether removing one works. *)
Record Sys : Type := mkSys {
  proc_alive : bool;
  dirs : list string;
  rm_fails : bool
}.

(** [os.RemoveAll]. *)
Definition remove_all (d : string) (s : Sys) : Sys * option IOErr :=
  if rm_fails s then (s, Some ErrOther)
  else (mkSys (proc_alive s) (filter (fun x => x ≠ d) (dirs s)) false, None).

(** [Close]. The third component is Go's return value, the fourth the errors
    of the calls whose result [Close] drops. *)
Definition Close (s : Sys) (r : RunnerProcess)
  : Sys * RunnerProcess * option RunnerError * list IOErr :=
  let s1 := if cancel r then mkSys false (dirs s) (rm_fails s) else s in
  let '(r1, e1) :=
    match conn r with
    | Some c => let '(c', e) := conn_close c in (set_conn r c', e)
    | None => (r, None)
    end in
  let '(s2, e2) :=
    if decide (tempDir r = EmptyString) then (s1, None)
    else remove_all (tempDir r) s1 in
  (s2, r1, None, omap id [e1; e2]).

(** ** Construction *)

Inductive DialResult : Type :=
| DialOk (c : Conn)
| DialENOENT                (* the socket file is not there yet *)
| DialErr.                  (* any other failure *)

(** What the operating system answers during [NewRunnerProcess]. *)
Record Env : Type := mkEnv {
  abs_ok : bool;                    (* [filepath.Abs] *)
  temp_dir : option string;         (* [TempDir] *)
  start_ok : bool;                  (* [cmd.Start] *)
  dial : nat -> DialResult          (* the [i]-th [net.Dial] *)
}.

Definition zeroModelParameters : ModelParameters :=
  mkModelParameters EmptyString 0 EmptyString 0%Q 0%Q 0 0 0 0 [] 0 0%Q.

Definition zeroProject : Project := mkProject 0 0 EmptyString EmptyString.

Definition zeroRunnerOpts : RunnerOpts := mkRunnerOpts EmptyString EmptyString.

(** The dial loop [for i := 0; ; i++]: give up at [i = 1000]. [fuel] is the
    number of iterations left after this one. *)
Fixpoint dial_loop (d : nat -> DialResult) (fuel i : nat) : Conn + RunnerError :=
  match d i with
  | DialOk c => inl c
  | DialErr => inr ErrOpeningSocket
  | DialENOENT =>
      if (i =? 1000)%nat then inr ErrNoSocket
      else match fuel with
           | O => inr ErrNoSocket
           | S fuel' => dial_loop d fuel' (S i)
           end
  end.
Arguments dial_loop : simpl never.

(** Lines 304 to 317 of [NewRunnerProcess]: the defaults put into the model
    parameters of the hello response. *)
Definition hello_model_parameters (mp : ModelParameters) : ModelParameters :=
  let mt := if decide (mp_ModelType mp = EmptyString)
            then ModelTypeClassification else mp_ModelType mp in
  let st := match Sensor mp with
            | 1 => SensorTypeMicrophone
            | 2 => SensorTypeAccelerometer
            | 3 => SensorTypeCamera
            | _ => SensorTypeUnknown
            end in
  mkModelParameters mt (Sensor mp) st (IntervalMS mp) (Frequency mp)
    (InputFeaturesCount mp) (ImageInputHeight mp) (ImageInputWidth mp)
    (ImageChannelCount mp) (Labels mp) (LabelCount mp) (HasAnomaly mp).

(** The deferred function of [NewRunnerProcess]: on an error, [Close]. *)
Definition fail_closing (s : Sys) (r : RunnerProcess) (e : RunnerError)
  : Sys * (RunnerProcess + RunnerError) :=
  let '(s', _, _, _) := Close s r in (s', inr e).

Definition NewRunnerProcess `{JSON} (env : Env) (s : Sys)
    (o : option RunnerOpts) : Sys * (RunnerProcess + RunnerError) :=
  if negb (abs_ok env) then (s, inr ErrAbsPath)
  else
    let o0 := match o with Some x => x | None => zeroRunnerOpts end in
    let r0 := mkRunnerProcess zeroModelParameters zeroProject o0 EmptyString
                false None 0 in
    let after_dir : Sys * RunnerProcess + RunnerError :=
      if decide (WorkDir o0 = EmptyString) then
        match temp_dir env with
        | None => inr ErrTempDir
        | Some d =>
            inl (mkSys (proc_alive s) (dirs s ++ [d]) (rm_fails s),
                 mkRunnerProcess zeroModelParameters zeroProject
                   (mkRunnerOpts d (TraceDir o0)) d false None 0)
        end
      else inl (s, r0) in
    match after_dir with
    | inr e => fail_closing s r0 e
    | inl (s1, r1) =>
        let r2 := mkRunnerProcess (modelParams r1) (project r1) (opts r1)
                    (tempDir r1) true None 0 in
        if negb (start_ok env) then fail_closing s1 r2 ErrStarting
        else
          let s2 := mkSys true (dirs s1) (rm_fails s1) in
          match dial_loop (dial env) 1000 0 with
          | inr e => fail_closing s2 r2 e
          | inl c =>
              let r3 := set_conn r2 c in
              let '(r4, id) := nextID r3 in
              let '(r5, resp, err) :=
                transact unmarshal_hello r4 id (HelloReq (mkHelloRequest id 1)) in
              match err, resp with
              | Some e, _ => fail_closing s2 r5 (ErrHello e)
              | None, None => fail_closing s2 r5 (ErrHello PanicNilConn)
              | None, Some hr =>
                  (s2, inl (mkRunnerProcess
                              (hello_model_parameters (hello_ModelParameters hr))
                              (hello_Project hr) (opts r5) (tempDir r5)
                              (cancel r5) (conn r5) (lastID r5)))
              end
          end
    end.

(** ** The interface [Runner] *)

Class Runner (RS : Type) : Type := mkRunner {
  runner_ModelParameters : RS -> ModelParameters;
  runner_Classify :
    RS -> list Z -> RS * option RunnerClassifyResponse * option RunnerError
}.

#[export] Instance RunnerProcess_Runner `{JSON} : Runner RunnerProcess :=
  mkRunner RunnerProcess modelParams Classify.

(** Errors the pipelines build or pass on. *)
Inductive PipelineError : Type :=
| SensorMismatch (got : SensorType)   (* sensor for this model was ..., expected ... *)
| ReadingAudio (e : IOErr)            (* reading audio *)
| RecorderError (msg : string)        (* the error of an image event *)
| ClassifyError (e : RunnerError).    (* what [Classify] returned *)

(** ** The audio classifier *)

(** [ClassifyEvent] of package [audio]; the duration is left out. *)
Record AudioEvent : Type := mkAudioEvent {
  ae_Err : option PipelineError;
  ae_Response : option RunnerClassifyResponse;
  ae_Samples : list Z
}.

Definition u8 (b : byte) : Z := Z.of_N (Byte.to_N b).

(** A little-endian [int16]. *)
Definition int16_le (b0 b1 : byte) : Z :=
  let u := u8 b0 + 256 * u8 b1 in
  if u <? 32768 then u else u - 65536.

(** [binary.Read(r, binary.LittleEndian, &v)] for [var v int16]: on a short
    read [v] keeps its zero and the reader is drained; the error is dropped. *)
Definition read_int16 (r : list byte) : Z * list byte :=
  match r with
  | b0 :: b1 :: r' => (int16_le b0 b1, r')
  | _ => (0, [])
  end.

(** The loop [for i := 0; i < sampleCount; i++] storing the decoded samples
    from index [start] on. [None] is the panic of an index out of range. *)
Fixpoint write_samples (count start : nat) (r : list byte) (w : list Z)
  : option (list Z) :=
  match count with
  | O => Some w
  | S k =>
      let '(v, r') := read_int16 r in
      if decide (start < length w)%nat
      then write_samples k (S start) r' (<[start := v]> w)
      else None
  end.

(** Go's [copy(dst, src)]: the first [min (len dst) (len src)] elements. *)
Definition go_copy {A : Type} (dst src : list A) : list A :=
  take (length dst) src ++ drop (length src) dst.

(** One turn of the capture loop after a full read (lines 102 to 126):
    [modelSamples] and [modelSampleCount] before and after. *)
Definition capture_window (intervalSampleCount : nat)
    (modelSamples : list Z) (modelSampleCount : nat) (intervalBuf : list byte)
  : option (list Z * nat) :=
  let '(sampleCount, buf) :=
    if decide (length modelSamples < intervalSampleCount)%nat
    then (length modelSamples,
          drop (2 * (intervalSampleCount - length modelSamples)) intervalBuf)
    else (intervalSampleCount, intervalBuf) in
  let start := modelSampleCount in
  let end_ := (start + sampleCount)%nat in
  let '(w1, start1, count1) :=
    if decide (length modelSamples < end_)%nat
    then let n := (end_ - length modelSamples)%nat in
         (go_copy modelSamples (drop n modelSamples),
          (start - n)%nat, (modelSampleCount - n)%nat)
    else (modelSamples, start, modelSampleCount) in
  match write_samples sampleCount start1 buf w1 with
  | None => None
  | Some w2 => Some (w2, (count1 + sampleCount)%nat)
  end.

(** [io.ReadFull(audio, intervalBuf)] on what the recorder still delivers. *)
Definition read_full (n : nat) (audio : list byte)
  : (list byte + IOErr) * list byte :=
  if decide (n <= length audio)%nat then (inl (take n audio), drop n audio)
  else (inr ErrEOF, []).

(** The capture loop run on its own, as the window sees it: the state after
    as many full intervals as the stream holds. *)
Fixpoint capture_run (fuel isc : nat) (w : list Z) (count : nat)
    (audio : list byte) : option (list Z * nat) :=
  match fuel with
  | O => Some (w, count)
  | S fuel' =>
      match read_full (2 * isc) audio with
      | (inr _, _) => Some (w, count)
      | (inl buf, audio') =>
          match capture_window isc w count buf with
          | None => None
          | Some (w', count') => capture_run fuel' isc w' count' audio'
          end
      end
  end.

(** Where the capture goroutine stands. *)
Inductive CaptureState : Type :=
| CapReading                      (* at [io.ReadFull] *)
| CapSendErr (ev : AudioEvent)    (* sending the read error on [Events] *)
| CapOffer (s : list Z)           (* at the [select] with a snapshot *)
| CapClosing                      (* returning: the deferred [close(samples)] *)
| CapStopped
| CapPanicked.

(** Where the classify goroutine stands. *)
Inductive WorkerState : Type :=
| WrkReceiving                    (* at [<-samples] *)
| WrkClassifying (s : list Z)     (* in [runner.Classify] *)
| WrkSendErr (ev : AudioEvent)    (* sending an error event, then [return] *)
| WrkSendOk (ev : AudioEvent)     (* sending a result, then the next turn *)
| WrkExited.

(** The audio classifier while it runs. [Events] has capacity one; [samples]
    is unbuffered, so it holds nothing between steps. *)
Record Audio (RS : Type) : Type := mkAudio {
  a_audio : list byte;
  a_window : list Z;
  a_count : nat;
  a_cap : CaptureState;
  a_samples_closed : bool;
  a_wrk : WorkerState;
  a_runner : RS;
  a_events : option AudioEvent;
  a_events_closed : bool;
  a_received : list AudioEvent
}.
Arguments mkAudio {RS}.
Arguments a_audio {RS}.
Arguments a_window {RS}.
Arguments a_count {RS}.
Arguments a_cap {RS}.
Arguments a_samples_closed {RS}.
Arguments a_wrk {RS}.
Arguments a_runner {RS}.
Arguments a_events {RS}.
Arguments a_events_closed {RS}.
Arguments a_received {RS}.



(** The recorder of package [audio]: its stream and how often [Reader] was
    called. *)
Record AudioRecorder : Type := mkAudioRecorder {
  rec_stream : list byte;
  rec_reader_calls : nat
}.

(** [audio.NewClassifier]. [intervalSampleCount] is the value of
    [int(modelParams.Frequency * interval.Seconds())], a floating point
    computation. *)
Definition audio_NewClassifier {RS : Type} `{Runner RS}
    (runner : RS) (recorder : AudioRecorder) (intervalSampleCount : nat)
  : AudioRecorder * (Audio RS + PipelineError) :=
  let modelParams := runner_ModelParameters runner in
  if decide (mp_SensorType modelParams ≠ SensorTypeMicrophone)
  then (recorder, inr (SensorMismatch (mp_SensorType modelParams)))
  else
    (mkAudioRecorder (rec_stream recorder) (S (rec_reader_calls recorder)),
     inl (mkAudio (rec_stream recorder)
            (replicate (InputFeaturesCount modelParams) 0) 0%nat
            CapReading false WrkReceiving runner None false [])).

Section AudioSteps.
Context {RS : Type} `{Runner RS}.

(** [intervalSampleCount], fixed when the classifier is made. *)
Variable isc : nat.

Definition set_capture (st : Audio RS) (audio : list byte) (w : list Z)
    (count : nat) (cap : CaptureState) : Audio RS :=
  mkAudio audio w count cap (a_samples_closed st) (a_wrk st) (a_runner st)
    (a_events st) (a_events_closed st) (a_received st).

Definition set_cap (st : Audio RS) (cap : CaptureState) : Audio RS :=
  set_capture st (a_audio st) (a_window st) (a_count st) cap.

Definition set_wrk (st : Audio RS) (wrk : WorkerState) : Audio RS :=
  mkAudio (a_audio st) (a_window st) (a_count st) (a_cap st)
    (a_samples_closed st) wrk (a_runner st) (a_events st)
    (a_events_closed st) (a_received st).

Definition set_runner (st : Audio RS) (rs : RS) : Audio RS :=
  mkAudio (a_audio st) (a_window st) (a_count st) (a_cap st)
    (a_samples_closed st) (a_wrk st) rs (a_events st)
    (a_events_closed st) (a_received st).

Definition set_events (st : Audio RS) (ev : option AudioEvent) : Audio RS :=
  mkAudio (a_audio st) (a_window st) (a_count st) (a_cap st)
    (a_samples_closed st) (a_wrk st) (a_runner st) ev
    (a_events_closed st) (a_received st).

Definition close_samples (st : Audio RS) : Audio RS :=
  mkAudio (a_audio st) (a_window st) (a_count st) (a_cap st)
    true (a_wrk st) (a_runner st) (a_events st)
    (a_events_closed st) (a_received st).

Definition deliver (st : Audio RS) (ev : AudioEvent) : Audio RS :=
  mkAudio (a_audio st) (a_window st) (a_count st) (a_cap st)
    (a_samples_closed st) (a_wrk st) (a_runner st) None
    (a_events_closed st) (a_received st ++ [ev]).

Definition error_event (e : PipelineError) : AudioEvent :=
  mkAudioEvent (Some e) None [].

(** One step of the capture goroutine (lines 89 to 144), [None] when it is
    blocked or has ended. *)
Definition capture_next (st : Audio RS) : option (Audio RS) :=
  match a_cap st with
  | CapReading =>
      match read_full (2 * isc) (a_audio st) with
      | (inr e, rest) =>
          Some (set_capture st rest (a_window st) (a_count st)
                  (CapSendErr (error_event (ReadingAudio e))))
      | (inl buf, rest) =>
          match capture_window isc (a_window st) (a_count st) buf with
          | None =>
              Some (set_capture st rest (a_window st) (a_count st) CapPanicked)
          | Some (w, count) =>
              if decide (count < length w)%nat
              then Some (set_capture st rest w count CapReading)
              else Some (set_capture st rest w count
                           (CapOffer (go_copy (replicate (length w) 0) w)))
          end
      end
  | CapSendErr ev =>
      match a_events st with
      | None => Some (set_cap (set_events st (Some ev)) CapClosing)
      | Some _ => None
      end
  | CapOffer s =>
      (* [select]: the send goes through if the worker waits at the
         receive, else the default case drops the snapshot. *)
      match a_wrk st with
      | WrkReceiving => Some (set_cap (set_wrk st (WrkClassifying s)) CapReading)
      | _ => Some (set_cap st CapReading)
      end
  | CapClosing => Some (set_cap (close_samples st) CapStopped)
  | CapStopped | CapPanicked => None
  end.

(** One step of the classify goroutine (lines 73 to 87). *)
Definition worker_next (st : Audio RS) : option (Audio RS) :=
  match a_wrk st with
  | WrkReceiving =>
      if a_samples_closed st then Some (set_wrk st WrkExited) else None
  | WrkClassifying s =>
      let '(rs, resp, err) := runner_Classify (a_runner st) s in
      match err with
      | Some e =>
          Some (set_wrk (set_runner st rs)
                  (WrkSendErr (error_event (ClassifyError e))))
      | None =>
          Some (set_wrk (set_runner st rs)
                  (WrkSendOk (mkAudioEvent None resp s)))
      end
  | WrkSendErr ev =>
      match a_events st with
      | None => Some (set_wrk (set_events st (Some ev)) WrkExited)
      | Some _ => None
      end
  | WrkSendOk ev =>
      match a_events st with
      | None => Some (set_wrk (set_events st (Some ev)) WrkReceiving)
      | Some _ => None
      end
  | WrkExited => None
  end.

(** The consumer takes the buffered event off [Events]. *)
Definition consumer_next (st : Audio RS) : option (Audio RS) :=
  match a_events st with
  | Some ev => Some (deliver st ev)
  | None => None
  end.

Inductive Actor : Type := Capture | Worker | Consumer.

Definition audio_next (a : Actor) (st : Audio RS) : option (Audio RS) :=
  match a with
  | Capture => capture_next st
  | Worker => worker_next st
  | Consumer => consumer_next st
  end.

(** Running a schedule; the turn of a blocked actor changes nothing. *)
Fixpoint audio_run (sched : list Actor) (st : Audio RS) : Audio RS :=
  match sched with
  | [] => st
  | a :: sched' =>
      match audio_next a st with
      | Some st' => audio_run sched' st'
      | None => audio_run sched' st
      end
  end.

Definition audio_reachable (st0 st : Audio RS) : Prop :=
  ∃ sched, audio_run sched st0 = st.

End AudioSteps.

(** ** The image classifier *)

(** [color.NRGBA]: colour that is not premultiplied by its alpha. *)
Record NRGBA : Type := mkNRGBA { cR : byte; cG : byte; cB : byte; cA : byte }.

(** [uint32] wrap-around. *)
Definition u32 (z : Z) : Z := z mod 2 ^ 32.

(** [color.NRGBA.RGBA]: one channel, premultiplied, 16 bits. *)
Definition premultiply (v a : byte) : Z :=
  let r := u8 v in
  let r := Z.lor r (u32 (Z.shiftl r 8)) in
  let r := u32 (r * u8 a) in
  r / 255.

Definition NRGBA_RGBA (c : NRGBA) : Z * Z * Z * Z :=
  (premultiply (cR c) (cA c), premultiply (cG c) (cA c),
   premultiply (cB c) (cA c),
   Z.lor (u8 (cA c)) (u32 (Z.shiftl (u8 (cA c)) 8))).

(** [color.Gray.RGBA]. *)
Definition Gray_RGBA (y : byte) : Z * Z * Z * Z :=
  let v := Z.lor (u8 y) (u32 (Z.shiftl (u8 y) 8)) in
  (v, v, v, 65535).

(** [*image.NRGBA] and [*image.Gray] with bounds from the origin, pixels in
    row-major order. *)
Record NRGBAImage : Type := mkNRGBAImage {
  n_width : nat; n_height : nat; n_pix : list NRGBA
}.

Record GrayImage : Type := mkGrayImage {
  g_width : nat; g_height : nat; g_pix : list byte
}.

(** [image.Image]: the two types the classifier tells apart, and any other
    one by its size and the [RGBA] values of its pixels. *)
Inductive Image : Type :=
| ImageNRGBA (i : NRGBAImage)
| ImageGray (i : GrayImage)
| ImageOther (w h : nat) (at_ : nat -> nat -> Z * Z * Z * Z).

Definition image_size (img : Image) : nat * nat :=
  match img with
  | ImageNRGBA i => (n_width i, n_height i)
  | ImageGray i => (g_width i, g_height i)
  | ImageOther w h _ => (w, h)
  end.

(** [img.At(x, y).RGBA()]; outside the bounds [At] gives the zero colour. *)
Definition At_RGBA (img : Image) (x y : nat) : Z * Z * Z * Z :=
  match img with
  | ImageNRGBA i =>
      if decide (x < n_width i ∧ y < n_height i)%nat
      then NRGBA_RGBA (default (mkNRGBA x00 x00 x00 x00)
                               (n_pix i !! (y * n_width i + x)%nat))
      else NRGBA_RGBA (mkNRGBA x00 x00 x00 x00)
  | ImageGray i =>
      if decide (x < g_width i ∧ y < g_height i)%nat
      then Gray_RGBA (default x00 (g_pix i !! (y * g_width i + x)%nat))
      else Gray_RGBA x00
  | ImageOther w h at_ =>
      if decide (x < w ∧ y < h)%nat then at_ x y else (0, 0, 0, 0)
  end.

(** The image libraries the classifier calls: [imaging.Fill] with
    [imaging.Center] and [imaging.NearestNeighbor], and [draw.Draw] with
    [draw.Src] onto a new NRGBA or Gray image of the same bounds. *)
Class Imaging : Type := mkImaging {
  imaging_Fill : Image -> nat -> nat -> NRGBAImage;
  draw_NRGBA : Image -> NRGBAImage;
  draw_Gray : Image -> GrayImage
}.

(** Lines 94 to 127: the image the features are taken from. *)
Definition normalize `{Imaging} (modelParams : ModelParameters) (img : Image)
  : Image :=
  let modelSize := (ImageInputWidth modelParams, ImageInputHeight modelParams) in
  let img := if decide (image_size img ≠ modelSize)
             then ImageNRGBA (imaging_Fill img modelSize.1 modelSize.2)
             else img in
  if decide (ImageChannelCount modelParams = 3)
  then match img with
       | ImageNRGBA _ => img
       | _ => ImageNRGBA (draw_NRGBA img)
       end
  else match img with
       | ImageGray _ => img
       | _ => ImageGray (draw_Gray img)
       end.

(** Lines 133 to 138: one pixel as one feature. *)
Definition pack_pixel (rgba : Z * Z * Z * Z) : Z :=
  let '(r, g, b, _) := rgba in
  let r := Z.shiftr r 8 in
  let g := Z.shiftr g 8 in
  let b := Z.shiftr b 8 in
  u32 (Z.lor (Z.lor (u32 (Z.shiftl r 16)) (u32 (Z.shiftl g 8))) b).

(** Lines 129 to 141: the features of an image, row after row. *)
Definition image_features (width height : nat) (img : Image) : list Z :=
  flat_map (fun y => map (fun x => pack_pixel (At_RGBA img x y)) (seq 0 width))
           (seq 0 height).

(** [Event] of the image recorder and [ClassifyEvent] of package [image]. *)
Record ImageEvent : Type := mkImageEvent {
  iev_Err : option PipelineError;
  iev_Image : Image
}.

Record ImageClassifyEvent : Type := mkImageClassifyEvent {
  ie_Err : option PipelineError;
  ie_Response : option RunnerClassifyResponse;
  ie_Image : option Image
}.

(** What the [select] of the loop receives. *)
Inductive Received : Type :=
| RStop                         (* a value on [c.stop] *)
| RClosed                       (* [imageEvents] was closed *)
| REvent (iev : ImageEvent).

Record ImageLoop (RS : Type) : Type := mkImageLoop {
  il_runner : RS;
  il_seq : Z;
  il_running : bool;
  il_events : list ImageClassifyEvent     (* sent on [Events], in order *)
}.
Arguments mkImageLoop {RS}.
Arguments il_runner {RS}.
Arguments il_seq {RS}.
Arguments il_running {RS}.
Arguments il_events {RS}.

(** One turn of the loop of the image classifier (lines 81 to 168). *)
Definition image_turn {RS : Type} `{Runner RS} `{Imaging}
    (modelParams : ModelParameters) (st : ImageLoop RS) (rcv : Received)
  : ImageLoop RS :=
  match rcv with
  | RStop | RClosed =>
      mkImageLoop (il_runner st) (il_seq st) false (il_events st)
  | REvent iev =>
      match iev_Err iev with
      | Some e =>
          mkImageLoop (il_runner st) (il_seq st) true
            (il_events st ++ [mkImageClassifyEvent (Some e) None None])
      | None =>
          let img := normalize modelParams (iev_Image iev) in
          let data := image_features (ImageInputWidth modelParams)
                        (ImageInputHeight modelParams) img in
          let '(rs, resp, err) := runner_Classify (il_runner st) data in
          match err with
          | Some e =>
              mkImageLoop rs (il_seq st) true
                (il_events st ++
                 [mkImageClassifyEvent (Some (ClassifyError e)) None None])
          | None =>
              mkImageLoop rs (il_seq st + 1) true
                (il_events st ++
                 [mkImageClassifyEvent None resp (Some (iev_Image iev))])
          end
      end
  end.

(** The goroutine of the image classifier on what it receives, in order. *)
Fixpoint image_loop {RS : Type} `{Runner RS} `{Imaging}
    (modelParams : ModelParameters) (st : ImageLoop RS) (rcvs : list Received)
  : ImageLoop RS :=
  match rcvs with
  | [] => st
  | rcv :: rcvs' =>
      if il_running st
      then image_loop modelParams (image_turn modelParams st rcv) rcvs'
      else st
  end.

(** The recorder of package [image], by how often [Events] was called. *)
Record ImageRecorder : Type := mkImageRecorder {
  rec_events_calls : nat
}.

(** [image.NewClassifier]: the check, then the state the goroutine starts
    in. *)
Definition image_NewClassifier {RS : Type} `{Runner RS}
    (runner : RS) (recorder : ImageRecorder)
  : ImageRecorder * (ImageLoop RS + PipelineError) :=
  let modelParams := runner_ModelParameters runner in
  if decide (mp_SensorType modelParams ≠ SensorTypeCamera)
  then (recorder, inr (SensorMismatch (mp_SensorType modelParams)))
  else (mkImageRecorder (S (rec_events_calls recorder)),
        inl (mkImageLoop runner 2 true [])).

(** ** Two callers of [Classify] on one runner

    [Classify] takes [r.mutex] for the whole of its body. Here the body is cut
    into the steps between which another goroutine could run: taking the
    lock, [nextID], the write of the request byte by byte (a [Write] on a
    socket may hand a long message to the peer in pieces), the wait for the
    response, and the deferred unlock. *)

Definition CallResult : Type :=
  (option RunnerClassifyResponse * option RunnerError)%type.

Inductive Caller : Type :=
| CallLock (data : list Z)                  (* at [r.mutex.Lock()] *)
| CallNextID (data : list Z)                (* lock held, at [r.nextID()] *)
| CallWrite (id : Z) (todo : list byte)     (* in [Encode]: bytes still to write *)
| CallRead (id : Z)                         (* request written, at [Decode] *)
| CallUnlock (res : CallResult)             (* at the deferred [Unlock] *)
| CallDone (res : CallResult).

(** The caller is between [Lock] and [Unlock]: its transaction is in
    flight. *)
Definition in_flight (c : Caller) : bool :=
  match c with
  | CallLock _ | CallDone _ => false
  | _ => true
  end.

Record Shared : Type := mkShared {
  sh_mutex : bool;                          (* is [r.mutex] held *)
  sh_runner : RunnerProcess
}.

(** One step of a caller on the shared runner; [None] when it waits for the
    mutex or has returned. *)
Definition caller_next `{JSON} (sh : Shared) (c : Caller)
  : option (Shared * Caller) :=
  let r := sh_runner sh in
  match c with
  | CallLock data =>
      if sh_mutex sh then None
      else Some (mkShared true r, CallNextID data)
  | CallNextID data =>
      let '(r1, id) := nextID r in
      Some (mkShared (sh_mutex sh) r1,
            CallWrite id (marshal (ClassifyReq (mkClassifyRequest id data))))
  | CallWrite id todo =>
      match conn r with
      | None => Some (sh, CallUnlock (None, Some PanicNilConn))
      | Some c0 =>
          if conn_closed c0
          then Some (mkShared (sh_mutex sh) (set_conn r c0),
                     CallUnlock (None, Some (ErrWritingJSON ErrClosed)))
          else match todo with
               | [] => Some (sh, CallRead id)
               | b :: todo' =>
                   Some (mkShared (sh_mutex sh)
                           (set_conn r (fst (conn_write [b] c0))),
                         CallWrite id todo')
               end
      end
  | CallRead id =>
      match conn r with
      | None => Some (sh, CallUnlock (None, Some PanicNilConn))
      | Some c1 =>
          let '(r', resp, err) := await_response unmarshal_classify r c1 in
          Some (mkShared (sh_mutex sh) r', CallUnlock (resp, err))
      end
  | CallUnlock res => Some (mkShared false r, CallDone res)
  | CallDone _ => None
  end.

(** Two goroutines, each in one call of [Classify]. *)
Record Pair : Type := mkPair {
  shared : Shared;
  callerA : Caller;
  callerB : Caller
}.

Inductive Who : Type := A | B.

Definition pair_next `{JSON} (w : Who) (p : Pair) : option Pair :=
  match w with
  | A => match caller_next (shared p) (callerA p) with
         | Some (sh, c) => Some (mkPair sh c (callerB p))
         | None => None
         end
  | B => match caller_next (shared p) (callerB p) with
         | Some (sh, c) => Some (mkPair sh (callerA p) c)
         | None => None
         end
  end.

(** A schedule; the turn of a caller that cannot move changes nothing. *)
Fixpoint pair_run `{JSON} (sched : list Who) (p : Pair) : Pair :=
  match sched with
  | [] => p
  | w :: sched' =>
      match pair_next w p with
      | Some p' => pair_run sched' p'
      | None => pair_run sched' p
      end
  end.

Definition pair_start (r : RunnerProcess) (dataA dataB : list Z) : Pair :=
  mkPair (mkShared false r) (CallLock dataA) (CallLock dataB).

(** What is left of a caller's transaction when it runs on alone. *)
Definition finish `{JSON} (r : RunnerProcess) (c : Caller)
  : option (RunnerProcess * CallResult) :=
  match c with
  | CallLock _ | CallDone _ => None
  | CallNextID data =>
      let '(r', resp, err) := Classify r data in Some (r', (resp, err))
  | CallWrite id todo =>
      match conn r with
      | None => Some (r, (None, Some PanicNilConn))
      | Some c0 =>
          let '(c1, werr) := conn_write todo c0 in
          match werr with
          | Some e => Some (set_conn r c1, (None, Some (ErrWritingJSON e)))
          | None =>
              let '(r', resp, err) := await_response unmarshal_classify r c1 in
              Some (r', (resp, err))
          end
      end
  | CallRead id =>
      match conn r with
      | None => Some (r, (None, Some PanicNilConn))
      | Some c1 =>
          let '(r', resp, err) := await_response unmarshal_classify r c1 in
          Some (r', (resp, err))
      end
  | CallUnlock res => Some (r, res)
  end.

(** ** A small codec and a connected runner, to run the model on

    The properties below hold for every codec; to evaluate the model on
    concrete streams one is needed. This one writes a hello request as [{h}],
    a classify request as [{c] followed by one byte per feature and [}], each
    with the newline of [Encode], reads [{t}] as a successful and [{f}] as a
    failed classify response, and [{d}] with a digit [d] as a hello response
    whose sensor code is [d]. *)

Definition demo_marshal (q : Request) : list byte :=
  match q with
  | HelloReq _ => [x7b; x68; x7d; x0a]
  | ClassifyReq c =>
      [x7b; x63]
        ++ map (fun z => default x00 (Byte.of_N (Z.to_N (z mod 256))))
               (Classify_data c)
        ++ [x7d; x0a]
  end.

Definition demo_response (ok : bool) : RunnerClassifyResponse :=
  mkClassifyResponse
    (mkRunnerResponse 0 ok (if ok then EmptyString else "boom"%string))
    None None 0%Q 0%Q 0%Q 0%Q.

Definition demo_unmarshal_classify (v : list byte)
  : option RunnerClassifyResponse :=
  match v with
  | [x7b; x74; x7d] => Some (demo_response true)
  | [x7b; x66; x7d] => Some (demo_response false)
  | _ => None
  end.

Definition demo_unmarshal_hello (v : list byte) : option runnerHelloResponse :=
  match v with
  | [x7b; d; x7d] =>
      if decide (48 <= u8 d <= 57)
      then Some (mkHelloResponse (mkRunnerResponse 1 true EmptyString)
                   (mkModelParameters EmptyString (u8 d - 48) EmptyString
                      0%Q 16000%Q 4 1 1 1 [] 0 0%Q)
                   zeroProject)
      else None
  | _ => None
  end.

Definition demoJSON : JSON :=
  mkJSON demo_marshal demo_unmarshal_hello demo_unmarshal_classify.

(** A response of the model as it goes over the wire: the JSON and the zero
    byte. *)
Definition framed (j : list byte) : list byte := j ++ [x00].

Definition demo_ok : list byte := [x7b; x74; x7d].
Definition demo_failed : list byte := [x7b; x66; x7d].

(** A runner whose connection holds the given stream. *)
Definition demo_runner (st : SensorType) (q : list ReadEvent) : RunnerProcess :=
  mkRunnerProcess
    (mkModelParameters ModelTypeClassification 0 st 0%Q 16000%Q 4 1 1 1 [] 0 0%Q)
    zeroProject zeroRunnerOpts EmptyString true (Some (mkConn q [] false)) 1.


Definition demo_sys : Sys := mkSys false [] false.

(** Image libraries that leave every pixel black; the examples below never
    reach them. *)
Definition demoImaging : Imaging :=
  mkImaging (fun _ w h => mkNRGBAImage w h [])
            (fun img => mkNRGBAImage (image_size img).1 (image_size img).2 [])
            (fun img => mkGrayImage (image_size img).1 (image_size img).2 []).

(** ** The words of the specification, for comparison *)


(** The samples of a stream of little-endian 16-bit PCM. *)
Fixpoint samples_of (bs : list byte) : list Z :=
  match bs with
  | b0 :: b1 :: bs' => int16_le b0 b1 :: samples_of bs'
  | _ => []
  end.

(** The most recent [n] elements. *)
Definition most_recent {A : Type} (n : nat) (l : list A) : list A :=
  drop (length l - n) l.

(** A 24-bit RGB integer. *)
Definition rgb24 (r g b : Z) : Z :=
  Z.lor (Z.lor (Z.shiftl r 16) (Z.shiftl g 8)) b.

(** The return values of [n] calls of [Close], one after the other. *)
Fixpoint close_repeatedly (n : nat) (s : Sys) (r : RunnerProcess)
  : list (option RunnerError) :=
  match n with
  | O => []
  | S n' => let '(s', r', ret, _) := Close s r in
            ret :: close_repeatedly n' s' r'
  end.

(** ** Invariants and inputs of the proofs below *)

(** A model of one channel for images of two by two pixels, and a grey image
    of that size. *)
Definition demo_gray_params : ModelParameters :=
  mkModelParameters ModelTypeClassification 3 SensorTypeCamera 0%Q 0%Q 4 2 2 1
    [] 0 0%Q.

Definition demo_gray_image : Image :=
  ImageGray (mkGrayImage 2 2 [x00; x01; x80; xff]).

(** What the capture loop keeps true of [modelSamples] and
    [modelSampleCount], for the samples [h] decoded so far: the first
    [count] places hold the most recent [count] samples, and [count] is the
    number of samples up to the length of the buffer. *)
Definition window_holds (h w : list Z) (count : nat) : Prop :=
  count = (length w `min` length h)%nat ∧ take count w = most_recent count h.


(** The audio classifier of [demo_runner] on a stream, an interval of two
    samples and a window of four. *)
Definition demo_audio (stream : list byte) (responses : list ReadEvent)
  : Audio RunnerProcess :=
  mkAudio stream (replicate 4%nat 0) 0%nat CapReading false WrkReceiving
    (demo_runner SensorTypeMicrophone responses) None false [].

(** A stream of four intervals and a schedule for it: the
    second read fills the window, the worker takes the snapshot, [Classify]
    fails, and the two later snapshots find no worker. *)
Definition demo_stream : list byte :=
  [x01; x00; x02; x00; x03; x00; x04; x00;
   x05; x00; x06; x00; x07; x00; x08; x00].

Definition demo_schedule : list Actor :=
  [Capture; Capture; Capture; Worker; Worker; Consumer;
   Capture; Capture; Capture; Capture;
   Capture; Capture; Capture; Worker; Consumer].

(** What is left of transaction [c] on runner [r] is what [Classify] does
    with [data] on runner [r_start]. *)
Definition completes `{JSON} (r : RunnerProcess) (c : Caller)
    (r_start : RunnerProcess) (data : list Z) : Prop :=
  in_flight c = true
  ∧ ∃ r' res, finish r c = Some (r', res)
              ∧ Classify r_start data = (r', res.1, res.2).

(** The states two callers can be in: one of the two serial orders, with at
    most one transaction under way. *)
Inductive pair_inv `{JSON} (r0 : RunnerProcess) (dA dB : list Z) : Pair -> Prop :=
| inv_idle :
    pair_inv r0 dA dB (mkPair (mkShared false r0) (CallLock dA) (CallLock dB))
| inv_A_flying r c :
    completes r c r0 dA ->
    pair_inv r0 dA dB (mkPair (mkShared true r) c (CallLock dB))
| inv_A_done r res :
    Classify r0 dA = (r, res.1, res.2) ->
    pair_inv r0 dA dB (mkPair (mkShared false r) (CallDone res) (CallLock dB))
| inv_AB_flying r1 resA r c :
    Classify r0 dA = (r1, resA.1, resA.2) ->
    completes r c r1 dB ->
    pair_inv r0 dA dB (mkPair (mkShared true r) (CallDone resA) c)
| inv_B_flying r c :
    completes r c r0 dB ->
    pair_inv r0 dA dB (mkPair (mkShared true r) (CallLock dA) c)
| inv_B_done r res :
    Classify r0 dB = (r, res.1, res.2) ->
    pair_inv r0 dA dB (mkPair (mkShared false r) (CallLock dA) (CallDone res))
| inv_BA_flying r1 resB r c :
    Classify r0 dB = (r1, resB.1, resB.2) ->
    completes r c r1 dA ->
    pair_inv r0 dA dB (mkPair (mkShared true r) c (CallDone resB))
| inv_AB_done r1 resA r resB :
    Classify r0 dA = (r1, resA.1, resA.2) ->
    Classify r1 dB = (r, resB.1, resB.2) ->
    pair_inv r0 dA dB (mkPair (mkShared false r) (CallDone resA) (CallDone resB))
| inv_BA_done r1 resA r resB :
    Classify r0 dB = (r1, resB.1, resB.2) ->
    Classify r1 dA = (r, resA.1, resA.2) ->
    pair_inv r0 dA dB (mkPair (mkShared false r) (CallDone resA) (CallDone resB)).

(** The bytes of the request [Classify] writes for [data] under [id]. *)
Definition request_bytes `{JSON} (id : Z) (data : list Z) : list byte :=
  marshal (ClassifyReq (mkClassifyRequest id data)).

(** A schedule in which B takes the lock in the middle of A's attempts: A
    waits, and the requests go out whole, B's first. *)
Definition demo_pair_schedule : list Who :=
  [B; A; B; A; B; A; B; B; B; A; B; A; B; B; B; B;
   A; A; A; A; A; A; A; A; A; A].

(** ** The loop of [eimclassify]

    Lines 71 to 79 of [cmd/eimclassify/main.go]: every set of features is
    classified in turn, an error is logged and the loop goes on. The results
    are kept in order. *)
Fixpoint classify_all `{JSON} (r : RunnerProcess) (datas : list (list Z))
  : RunnerProcess * list CallResult :=
  match datas with
  | [] => (r, [])
  | data :: datas' =>
      let '(r1, resp, err) := Classify r data in
      let '(r2, results) := classify_all r1 datas' in
      (r2, (resp, err) :: results)
  end.

(** ** [eimimagereq]: an image back from a classify request

    [cmd/eimimagereq/main.go] reads the features of a traced request as
    [uint32] and rebuilds the image of 96 by 96 pixels they came from. *)

(** [uint8(x)] of a value already masked with [0xff]. *)
Definition to_u8 (z : Z) : byte := default x00 (Byte.of_N (Z.to_N z)).

(** Lines 34 to 40: the pixel of one feature. [img.Set] stores the opaque
    [color.RGBA] as the NRGBA colour of the same channels. *)
Definition unpack_pixel (v : Z) : NRGBA :=
  let r := to_u8 (Z.land (Z.shiftr v 16) 255) in
  let g := to_u8 (Z.land (Z.shiftr v 8) 255) in
  let b := to_u8 (Z.land (Z.shiftr v 0) 255) in
  mkNRGBA r g b xff.

(** The program for a square of [side] pixels ([side] is 96 in the source):
    [None] is the fatal exit on an unexpected number of values. The loop
    takes the values in order, row after row. *)
Definition eimimagereq_sized (side : nat) (data : list Z) : option NRGBAImage :=
  if decide (length data ≠ (side * side)%nat) then None
  else Some (mkNRGBAImage side side (map unpack_pixel data)).

Definition eimimagereq (data : list Z) : option NRGBAImage :=
  eimimagereq_sized 96 data.

(** ** What holds of the audio classifier while it runs *)

(** [s] is a window of the stream: the most recent [N] samples after some
    number of whole intervals. *)
Definition is_window (stream : list byte) (isc N : nat) (s : list Z) : Prop :=
  ∃ k : nat,
    (2 * isc * k <= length stream)%nat
    ∧ (N <= k * isc)%nat
    ∧ s = most_recent N (samples_of (take (2 * isc * k) stream)).

(** An event that carries a result carries a window of the stream. *)
Definition event_ok (stream : list byte) (isc N : nat) (ev : AudioEvent)
  : Prop :=
  ae_Err ev = None -> is_window stream isc N (ae_Samples ev).

Definition audio_inv {RS : Type} (stream : list byte) (isc N : nat)
    (st : Audio RS) : Prop :=
  length (a_window st) = N
  ∧ (∃ k : nat,
        (2 * isc * k <= length stream)%nat
        ∧ window_holds (samples_of (take (2 * isc * k) stream))
            (a_window st) (a_count st)
        ∧ match a_cap st with
          | CapReading | CapOffer _ => a_audio st = drop (2 * isc * k) stream
          | _ => True
          end)
  ∧ match a_cap st with
    | CapOffer s => is_window stream isc N s
    | CapSendErr ev => event_ok stream isc N ev
    | CapPanicked => False
    | _ => True
    end
  ∧ match a_wrk st with
    | WrkClassifying s => is_window stream isc N s
    | WrkSendErr ev | WrkSendOk ev => event_ok stream isc N ev
    | _ => True
    end
  ∧ (∀ ev, a_events st = Some ev -> event_ok stream isc N ev)
  ∧ Forall (event_ok stream isc N) (a_received st).

(** The number of events that carry a result. *)
Definition results (evs : list ImageClassifyEvent) : nat :=
  length (List.filter
            (fun ev => match ie_Err ev with None => true | Some _ => false end)
            evs).

(** What the [select] receives is an image event. *)
Definition is_event (rcv : Received) : Prop :=
  match rcv with REvent _ => True | _ => False end.

(** ** The moving average filter ([maf.go])

    [eimaudio] smooths the classification of each result event with it. The
    arithmetic of [float64] stays a parameter: what is proved of the filter
    holds for any addition, subtraction and division. *)

Class Floats (F : Type) : Type := mkFloats {
  f_zero : F;
  f_add : F -> F -> F;
  f_sub : F -> F -> F;
  f_div : F -> F -> F;
  f_of_nat : nat -> F           (* [float64(len(ls.values))] *)
}.

Record labelState (F : Type) : Type := mkLabelState {
  ls_index : nat;
  ls_sum : F;
  ls_values : list F
}.
Arguments mkLabelState {F}.
Arguments ls_index {F}.
Arguments ls_sum {F}.
Arguments ls_values {F}.

(** [MAF]: its [state] map, [None] for the nil map of a filter made without
    [NewMAF]. *)
Definition MAF (F : Type) : Type := option (gmap string (labelState F)).

Inductive MAFError : Type :=
| MAFSize                       (* size must be > 0 *)
| MAFNoLabels                   (* must specify at least one label *)
| MAFInvalid                    (* invalid MAF, use NewMAF *)
| MAFEmpty                      (* classification must not be empty *)
| MAFUnknownLabel (l : string)  (* unknown label *)
| MAFPanic.                     (* a slice of negative length or an index out of range *)

(** [NewMAF]; [make] panics on a negative size. *)
Definition NewMAF {F : Type} `{Floats F} (size : Z) (labels : list string)
  : MAF F + MAFError :=
  if decide (size = 0) then inr MAFSize
  else if decide (length labels = 0%nat) then inr MAFNoLabels
  else if decide (size < 0) then inr MAFPanic
  else inl (Some (foldl
                    (fun st label =>
                       <[label := mkLabelState 0 f_zero
                                    (replicate (Z.to_nat size) f_zero)]> st)
                    ∅ labels)).

(** Lines 116 to 123 of [Update]: one value into the history of one label.
    The second component is the smoothed value; [None] is the panic of an
    index out of range. *)
Definition label_step {F : Type} `{Floats F} (ls : labelState F) (value : F)
  : option (labelState F * F) :=
  match ls_values ls !! ls_index ls with
  | None => None
  | Some old =>
      let sum := f_add (f_sub (ls_sum ls) old) value in
      let values := <[ls_index ls := value]> (ls_values ls) in
      let r := f_div sum (f_of_nat (length values)) in
      let index := S (ls_index ls) in
      let index := if decide (length values <= index)%nat then 0%nat
                   else index in
      Some (mkLabelState index sum values, r)
  end.

(** The loop of [Update] over the classification, in the order in which
    [range] visits the map: each label once. The label states are reached
    through pointers, so what was changed before an error stays changed. *)
Fixpoint update_loop {F : Type} `{Floats F}
    (state : gmap string (labelState F)) (r : gmap string F)
    (cl : list (string * F))
  : gmap string (labelState F) * (gmap string F + MAFError) :=
  match cl with
  | [] => (state, inl r)
  | (label, value) :: cl' =>
      match state !! label with
      | None => (state, inr (MAFUnknownLabel label))
      | Some ls =>
          match label_step ls value with
          | None => (state, inr MAFPanic)
          | Some (ls', avg) =>
              update_loop (<[label := ls']> state) (<[label := avg]> r) cl'
          end
      end
  end.

Definition Update {F : Type} `{Floats F} (m : MAF F) (cl : list (string * F))
  : MAF F * (gmap string F + MAFError) :=
  match m with
  | None => (m, inr MAFInvalid)
  | Some state =>
      if decide (length cl = 0%nat) then (m, inr MAFEmpty)
      else let '(state', res) := update_loop state ∅ cl in (Some state', res)
  end.

(** Updates one after the other, with their results. *)
Fixpoint maf_run {F : Type} `{Floats F} (m : MAF F)
    (cls : list (list (string * F)))
  : MAF F * list (gmap string F + MAFError) :=
  match cls with
  | [] => (m, [])
  | cl :: cls' =>
      let '(m1, res) := Update m cl in
      let '(m2, ress) := maf_run m1 cls' in
      (m2, res :: ress)
  end.

(** The values of one label fed to its history, one per update. *)
Fixpoint label_feed {F : Type} `{Floats F} (ls : labelState F) (vs : list F)
  : option (labelState F) :=
  match vs with
  | [] => Some ls
  | v :: vs' =>
      match label_step ls v with
      | None => None
      | Some (ls', _) => label_feed ls' vs'
      end
  end.

(** Every history has [size] places and an index inside them. *)
Definition maf_wf {F : Type} (size : nat) (state : gmap string (labelState F))
  : Prop :=
  ∀ l ls, state !! l = Some ls ->
          length (ls_values ls) = size ∧ (ls_index ls < size)%nat.

(** The history of a label as a ring: after the values [done], the place
    [(length done + k) mod size] holds the value [k] places after the
    oldest one that is kept. *)
Definition ring_of {F : Type} `{Floats F} (size : nat) (done : list F)
    (ls : labelState F) : Prop :=
  length (ls_values ls) = size
  ∧ ls_index ls = (length done mod size)%nat
  ∧ ∀ k, (k < size)%nat ->
         ls_values ls !! ((length done + k) mod size)%nat
         = (replicate size f_zero ++ done) !! (length done + k)%nat.

(** ** The payload of the collector (ingest/collect.go) *)

Module ingest.

Record Sensor : Type := mkSensor {
  sensor_Name : string;
  sensor_Units : string
}.

Record CollectPayload (F : Type) : Type := mkCollectPayload {
  DeviceName : string;
  DeviceType : string;
  IntervalMS : Z;
  Sensors : list Sensor;
  Values : list (list F)
}.
Arguments mkCollectPayload {F}.
Arguments DeviceName {F}.
Arguments DeviceType {F}.
Arguments IntervalMS {F}.
Arguments Sensors {F}.
Arguments Values {F}.

(** invalid data, got [got] values, expect value for each of [sensors]
    sensors *)
Inductive AddDataError : Type :=
| InvalidData (got sensors : nat).

(** [AddData]: the payload after the call, and the error. *)
Definition AddData {F : Type} (p : CollectPayload F) (data : list F)
  : CollectPayload F * option AddDataError :=
  if decide (length (Sensors p) ≠ length data)
  then (p, Some (InvalidData (length data) (length (Sensors p))))
  else (mkCollectPayload (DeviceName p) (DeviceType p) (IntervalMS p)
          (Sensors p) (Values p ++ [data]), None).

(** Calls of [AddData] one after the other, with their errors. *)
Fixpoint add_all {F : Type} (p : CollectPayload F) (datas : list (list F))
  : CollectPayload F * list (option AddDataError) :=
  match datas with
  | [] => (p, [])
  | data :: datas' =>
      let '(p1, e) := AddData p data in
      let '(p2, es) := add_all p1 datas' in
      (p2, e :: es)
  end.

End ingest.

(** A payload of three sensors with one row of values. *)
Definition demo_payload : ingest.CollectPayload Z :=
  ingest.mkCollectPayload "00:00:00:00:00:00" "LINUX_GO_EXAMPLE" 10
    [ingest.mkSensor "accX" "m/s2"; ingest.mkSensor "accY" "m/s2";
     ingest.mkSensor "accZ" "m/s2"]
    [[1; 2; 3]].

(** Integers as the numbers of the filter, to run it on. *)
Definition demoFloats : Floats Z := mkFloats Z 0 Z.add Z.sub Z.div Z.of_nat.

(** The state of a filter of size 3 for the labels a and b, after the
    classification a = 3, b = 6. *)
Definition demo_maf_state : gmap string (labelState Z) :=
  <["a"%string := mkLabelState 1 3 [3; 0; 0]]>
    (<["b"%string := mkLabelState 1 6 [6; 0; 0]]> ∅).

(* ===================================================================== *)
(** * Part II: properties *)
(* ===================================================================== *)

(** ** The handshake *)








(** ** Construction of the pipelines *)

(** C8. With model parameters whose sensor kind is not microphone,
    [audio.NewClassifier] returns the sensor mismatch error, and neither asks
    the recorder for its reader nor starts a goroutine; likewise
    [image.NewClassifier] when the sensor kind is not camera. *)
Theorem sensor_mismatch_at_construction {RS : Type} `{Runner RS}
    (runner : RS) (arec : AudioRecorder) (irec : ImageRecorder) (isc : nat) :
  (mp_SensorType (runner_ModelParameters runner) ≠ SensorTypeMicrophone ->
   audio_NewClassifier runner arec isc
   = (arec, inr (SensorMismatch (mp_SensorType (runner_ModelParameters runner)))))
  ∧ (mp_SensorType (runner_ModelParameters runner) ≠ SensorTypeCamera ->
     image_NewClassifier runner irec
     = (irec, inr (SensorMismatch (mp_SensorType (runner_ModelParameters runner))))).
Proof.
  unfold audio_NewClassifier, image_NewClassifier.
  split; intros Hne; case_decide; [reflexivity|contradiction|reflexivity|contradiction].
Qed.

Lemma sensor_mismatch_at_construction_witness :
  let runner := demo_runner SensorTypeAccelerometer [] in
  audio_NewClassifier (H := RunnerProcess_Runner (H := demoJSON)) runner
    (mkAudioRecorder [x01; x00] 0) 1
  = (mkAudioRecorder [x01; x00] 0, inr (SensorMismatch "accelerometer"%string))
  ∧ image_NewClassifier (H := RunnerProcess_Runner (H := demoJSON)) runner
      (mkImageRecorder 0)
    = (mkImageRecorder 0, inr (SensorMismatch "accelerometer"%string)).
Proof.
  intros runner.
  destruct (sensor_mismatch_at_construction
              (H := RunnerProcess_Runner (H := demoJSON)) runner
              (mkAudioRecorder [x01; x00] 0) (mkImageRecorder 0) 1)
    as [Ha Hi].
  split.
  - apply Ha. vm_compute. discriminate.
  - apply Hi. vm_compute. discriminate.
Defined.

(** ** Shutdown *)

Lemma Close_ret (s : Sys) (r : RunnerProcess) :
  (Close s r).1.2 = None.
Proof.
  unfold Close.
  destruct (conn r) as [c|]; [destruct (conn_close c)|];
    destruct (decide (tempDir r = EmptyString)); try reflexivity;
    destruct (remove_all _ _); reflexivity.
Qed.

(** The second [Close] of a connected runner finds the connection closed; the
    error stays inside [Close]. *)
Lemma Close_drops_errors :
  let r := demo_runner SensorTypeMicrophone [] in
  let '(s1, r1, ret1, dropped1) := Close demo_sys r in
  let '(_, _, ret2, dropped2) := Close s1 r1 in
  ret1 = None ∧ dropped1 = [] ∧ ret2 = None ∧ dropped2 = [ErrClosed].
Proof. vm_compute. auto. Qed.

(** C10. [Close] returns nil in every state of the runner and of the system
    around it, so also for a runner left half made by a failed construction
    and for one that was closed before; any number of calls in a row all
    return nil. *)
Theorem Close_returns_nil (n : nat) (s : Sys) (r : RunnerProcess) :
  (Close s r).1.2 = None
  ∧ Forall (fun ret => ret = None) (close_repeatedly n s r).
Proof.
  split; [apply Close_ret|].
  revert s r. induction n as [|n IH]; intros s r; simpl; [constructor|].
  pose proof (Close_ret s r) as Hret.
  destruct (Close s r) as [[[s' r'] ret] dropped]. simpl in Hret.
  constructor; [exact Hret|apply IH].
Qed.

(** ** Framing of a transaction *)

Lemma scan_complete_bounds (bs : list byte) :
  ∀ s n, scan s bs = Complete n -> (1 <= n <= length bs)%nat.
Proof.
  induction bs as [|c bs IH]; intros s n; simpl; [discriminate|].
  destruct (scan_step s c) as [s'| |]; try discriminate.
  - destruct (scan s' bs) as [m| |] eqn:Hs; try discriminate.
    intros [= <-]. apply IH in Hs. lia.
  - intros [= <-]. lia.
Qed.

(** Scanning is incremental: the state after one refill is where the next
    one starts. *)
Lemma scan_app (p q : list byte) :
  ∀ s, scan s (p ++ q) =
       match scan s p with
       | Complete n => Complete n
       | Invalid => Invalid
       | NeedMore s' =>
           match scan s' q with
           | Complete n => Complete (length p + n)
           | o => o
           end
       end.
Proof.
  induction p as [|c p IH]; intros s; simpl.
  - destruct (scan s q); reflexivity.
  - destruct (scan_step s c) as [s'| |]; try reflexivity.
    rewrite IH. destruct (scan s' p) as [m|s''|]; try reflexivity.
    destruct (scan s'' q); reflexivity.
Qed.

Lemma concat_nonempty_nil (cs : list (list byte)) :
  Forall (fun ch => ch ≠ []) cs -> concat cs = [] -> cs = [].
Proof.
  destruct cs as [|c cs]; [reflexivity|].
  intros Hne Hc. inversion Hne; subst. simpl in Hc.
  destruct c; [contradiction|discriminate].
Qed.

Lemma concat_nonempty_single (cs : list (list byte)) (b : byte) :
  Forall (fun ch => ch ≠ []) cs -> concat cs = [b] -> cs = [[b]].
Proof.
  destruct cs as [|c cs]; [discriminate|].
  intros Hne Hc. inversion Hne as [|? ? Hc0 Hcs]; subst. simpl in Hc.
  destruct c as [|b0 c]; [contradiction|].
  injection Hc as -> Hrest.
  apply app_eq_nil in Hrest as [-> Hrest].
  rewrite (concat_nonempty_nil cs Hcs Hrest). reflexivity.
Qed.

(** The decoder on a response that arrives in any pieces: it returns the
    JSON, and the zero byte is either what it has buffered or the next thing
    on the connection. *)
Lemma readValue_framed (cs : list (list byte)) :
  ∀ (s : ScanState) (buf j : list byte) (rest : list ReadEvent),
    scan s j = Complete (length j) ->
    concat cs = j ++ [x00] ->
    Forall (fun ch => ch ≠ []) cs ->
    readValue s buf (map Data cs ++ rest) = (inl (buf ++ j, [x00]), rest)
    ∨ readValue s buf (map Data cs ++ rest)
      = (inl (buf ++ j, []), Data [x00] :: rest).
Proof.
  induction cs as [|c cs IH]; intros s buf j rest Hscan Hcat Hne.
  - destruct j; discriminate.
  - inversion Hne as [|? ? Hc Hcs]; subst. simpl in Hcat. simpl.
    apply app_eq_app in Hcat as [l [[Hcj Hl]|[Hjc Hl]]].
    + (* the chunk holds the whole of what is left of the JSON *)
      subst c.
      rewrite scan_app, Hscan.
      rewrite take_app_length, drop_app_length.
      destruct l as [|b l].
      * simpl in Hl. symmetry in Hl.
        rewrite (concat_nonempty_single cs x00 Hcs Hl). right.
        reflexivity.
      * injection Hl as <- Hl. symmetry in Hl.
        apply app_eq_nil in Hl as [-> Hl].
        rewrite (concat_nonempty_nil cs Hcs Hl). left. reflexivity.
    + (* the JSON goes on after the chunk *)
      subst j. rewrite scan_app in Hscan.
      destruct (scan s c) as [n|s'|] eqn:Hsc; [| |discriminate].
      * injection Hscan as ->.
        apply scan_complete_bounds in Hsc. rewrite length_app in Hsc.
        assert (l = []) as -> by (destruct l; [reflexivity|simpl in Hsc; lia]).
        rewrite app_nil_r in *. simpl in Hl.
        rewrite (concat_nonempty_single cs x00 Hcs Hl). right.
        rewrite take_ge, drop_ge by lia. reflexivity.
      * destruct (scan s' l) as [n| |] eqn:Hsl; try discriminate.
        injection Hscan as Hn. rewrite length_app in Hn.
        assert (n = length l) as -> by lia.
        destruct (IH s' (buf ++ c) l rest Hsl Hl Hcs) as [-> | ->];
          rewrite <- app_assoc; [left|right]; reflexivity.
Qed.




(** When the decoder has buffered the zero byte, nothing is read for it; when
    it has not, one byte is. *)
Example sentinel_in_buffer :
  (Classify (H := demoJSON)
     (demo_runner SensorTypeMicrophone
        [Data (framed demo_ok); Data (framed demo_failed)]) [5]).1.1
  = mkRunnerProcess
      (modelParams (demo_runner SensorTypeMicrophone []))
      zeroProject zeroRunnerOpts EmptyString true
      (Some (mkConn [Data (framed demo_failed)] [x7b; x63; x05; x7d; x0a] false))
      2.
Proof. vm_compute. reflexivity. Qed.

Example sentinel_on_transport :
  (Classify (H := demoJSON)
     (demo_runner SensorTypeMicrophone
        [Data demo_ok; Data [x00]; Data (framed demo_failed)]) [5]).1.1
  = mkRunnerProcess
      (modelParams (demo_runner SensorTypeMicrophone []))
      zeroProject zeroRunnerOpts EmptyString true
      (Some (mkConn [Data (framed demo_failed)] [x7b; x63; x05; x7d; x0a] false))
      2.
Proof. vm_compute. reflexivity. Qed.

(** The drain drops whatever the decoder has buffered beyond the JSON, not
    only the zero byte. Under the request and response discipline the model
    sends nothing after the zero byte before the next request, so there is
    nothing else to drop; a second response that had arrived in the same read
    would be lost with it. *)
Example buffered_beyond_sentinel_is_dropped :
  (incoming <$> conn
     (Classify (H := demoJSON)
        (demo_runner SensorTypeMicrophone
           [Data (framed demo_ok ++ framed demo_failed)]) [5]).1.1)
  = Some [].
Proof. vm_compute. reflexivity. Qed.

(** ** No failed state *)

Lemma conn_read_outgoing (n : nat) (c : Conn) :
  outgoing (conn_read n c).1 = outgoing c
  ∧ conn_closed (conn_read n c).1 = conn_closed c.
Proof.
  unfold conn_read. destruct (conn_closed c) eqn:Hcl; [auto|].
  destruct (incoming c) as [|[bs|e] q]; simpl; auto.
  destruct (length bs <=? n)%nat; simpl; auto.
Qed.

(** Waiting for a response reads from the connection and changes nothing
    else of the runner. *)
Lemma await_response_outgoing {R : Type} `{runnerResponser R}
    (unmarshal : list byte -> option R) (r r' : RunnerProcess) (c1 : Conn)
    (resp : option R) (err : option RunnerError) :
  await_response unmarshal r c1 = (r', resp, err) ->
  ∃ c', conn r' = Some c' ∧ outgoing c' = outgoing c1
        ∧ conn_closed c' = conn_closed c1
        ∧ lastID r' = lastID r.
Proof.
  unfold await_response, decode.
  destruct (conn_closed c1) eqn:Hcl.
  - intros [= <- <- <-]. eexists; simpl; eauto.
  - destruct (readValue SBegin [] (incoming c1)) as [[[value buffered]|e] q].
    + destruct (unmarshal value) as [x|].
      * set (c2 := set_incoming c1 q).
        assert (outgoing c2 = outgoing c1 ∧ conn_closed c2 = false)
          as [Ho2 Hc2] by (subst c2; simpl; auto).
        destruct (conn_read_outgoing 1 c2) as [Ho3 Hc3].
        destruct (Success (runnerResponse x)); intros [= <- <- <-];
          eexists; (split; [reflexivity|]); simpl;
          destruct buffered; rewrite ?Ho3, ?Hc3; auto.
      * intros [= <- <- <-]. eexists; simpl; eauto.
    + intros [= <- <- <-]. eexists; simpl; eauto.
Qed.

(** [Classify] on an open connection: the next id, the request written, then
    the wait for the response. *)
Lemma Classify_open `{JSON} (r : RunnerProcess) (c : Conn) (data : list Z) :
  conn r = Some c ->
  conn_closed c = false ->
  let id := wrap64 (lastID r + 1) in
  let request := marshal (ClassifyReq (mkClassifyRequest id data)) in
  ∃ r' resp err c',
    Classify r data = (r', resp, err)
    ∧ (r', resp, err)
      = await_response unmarshal_classify (nextID r).1
          (mkConn (incoming c) (outgoing c ++ request) false)
    ∧ conn r' = Some c'
    ∧ outgoing c' = outgoing c ++ request
    ∧ conn_closed c' = false
    ∧ lastID r' = id.
Proof.
  intros Hconn Hopen id request.
  unfold Classify, transact. simpl. rewrite Hconn.
  unfold conn_write. rewrite Hopen. fold id. fold request.
  match goal with
  | |- context [await_response ?u ?r1 ?c1] =>
      destruct (await_response u r1 c1) as [[r' resp] err] eqn:Ha
  end.
  destruct (await_response_outgoing _ _ _ _ _ _ Ha)
    as (c' & Hc' & Ho & Hcl & Hid).
  exists r', resp, err, c'.
  split; [reflexivity|]. split; [reflexivity|].
  split; [exact Hc'|]. split; [exact Ho|]. split; [exact Hcl|exact Hid].
Qed.




(** ** Features of an image *)

Lemma u8_range (b : byte) : 0 <= u8 b < 256.
Proof.
  unfold u8. pose proof (Byte.to_N_bounded b) as Hb.
  split; [apply N2Z.is_nonneg|]. lia.
Qed.

Lemma lor_lt_pow2 (a b n : Z) :
  0 < n -> 0 <= a < 2 ^ n -> 0 <= b < 2 ^ n -> 0 <= Z.lor a b < 2 ^ n.
Proof.
  intros Hn Ha Hb. split; [apply Z.lor_nonneg; lia|].
  destruct (Z.eq_dec (Z.lor a b) 0) as [->|Hz]; [apply Z.pow_pos_nonneg; lia|].
  assert (0 <= Z.lor a b) by (apply Z.lor_nonneg; lia).
  apply Z.log2_lt_pow2; [lia|]. rewrite Z.log2_lor by lia.
  apply Z.max_lub_lt.
  - destruct (Z.eq_dec a 0) as [->|]; [simpl; lia|apply Z.log2_lt_pow2; lia].
  - destruct (Z.eq_dec b 0) as [->|]; [simpl; lia|apply Z.log2_lt_pow2; lia].
Qed.

(** Three bytes packed by [pack_pixel]'s last line never leave 32 bits. *)
Lemma pack_bytes (r g b : Z) :
  0 <= r < 256 -> 0 <= g < 256 -> 0 <= b < 256 ->
  u32 (Z.lor (Z.lor (u32 (Z.shiftl r 16)) (u32 (Z.shiftl g 8))) b)
  = rgb24 r g b.
Proof.
  intros Hr Hg Hb. unfold u32, rgb24.
  rewrite !Z.shiftl_mul_pow2 by lia.
  rewrite (Z.mod_small (r * 2 ^ 16)) by lia.
  rewrite (Z.mod_small (g * 2 ^ 8)) by lia.
  apply Z.mod_small.
  assert (0 <= Z.lor (Z.lor (r * 2 ^ 16) (g * 2 ^ 8)) b < 2 ^ 24); [|lia].
  apply lor_lt_pow2; [lia| |lia]. apply lor_lt_pow2; lia.
Qed.

Lemma gray_channel (v : byte) :
  Z.shiftr (Z.lor (u8 v) (u32 (Z.shiftl (u8 v) 8))) 8 = u8 v.
Proof. destruct v; reflexivity. Qed.

Lemma opaque_channel (v : byte) :
  Z.shiftr (premultiply v xff) 8 = u8 v.
Proof. destruct v; reflexivity. Qed.

Lemma pack_gray (v : byte) :
  pack_pixel (Gray_RGBA v) = rgb24 (u8 v) (u8 v) (u8 v).
Proof.
  unfold pack_pixel, Gray_RGBA. rewrite gray_channel.
  apply pack_bytes; apply u8_range.
Qed.

Lemma pack_opaque (c : NRGBA) :
  cA c = xff ->
  pack_pixel (NRGBA_RGBA c) = rgb24 (u8 (cR c)) (u8 (cG c)) (u8 (cB c)).
Proof.
  intros Ha. unfold pack_pixel, NRGBA_RGBA. rewrite Ha, !opaque_channel.
  apply pack_bytes; apply u8_range.
Qed.

(** Rows of equal length laid end to end. *)
Lemma lookup_rows {A : Type} (g : nat -> nat -> A) (width : nat) :
  ∀ (height y0 x y : nat),
    (x < width)%nat -> (y < height)%nat ->
    flat_map (fun y => map (fun x => g x y) (seq 0 width)) (seq y0 height)
      !! (y * width + x)%nat
    = Some (g x (y0 + y)%nat).
Proof.
  induction height as [|height IH]; intros y0 x y Hx Hy; [lia|].
  simpl. destruct y as [|y].
  - rewrite lookup_app_l by (rewrite length_map, length_seq; lia).
    simpl. rewrite list_lookup_fmap, lookup_seq_lt by lia.
    simpl. rewrite Nat.add_0_r. reflexivity.
  - rewrite lookup_app_r by (rewrite length_map, length_seq; lia).
    rewrite length_map, length_seq.
    replace (S y * width + x - width)%nat with (y * width + x)%nat by lia.
    rewrite IH by lia. f_equal. f_equal. lia.
Qed.

Lemma image_features_lookup (width height : nat) (img : Image) (x y : nat) :
  (x < width)%nat -> (y < height)%nat ->
  image_features width height img !! (y * width + x)%nat
  = Some (pack_pixel (At_RGBA img x y)).
Proof.
  intros Hx Hy. unfold image_features.
  rewrite (lookup_rows (fun x y => pack_pixel (At_RGBA img x y))) by assumption.
  reflexivity.
Qed.

Lemma normalize_type `{Imaging} (mp : ModelParameters) (img : Image) :
  (ImageChannelCount mp = 3 -> ∃ i, normalize mp img = ImageNRGBA i)
  ∧ (ImageChannelCount mp ≠ 3 -> ∃ i, normalize mp img = ImageGray i).
Proof.
  unfold normalize. split; intros Hc; case_decide; try contradiction;
    match goal with
    | |- context [if ?d then _ else _] => destruct d
    end; try destruct img; eauto.
Qed.

(** C7, as the code has it. The features of a normalized image are its pixels
    in row-major order, each packed as the 24-bit integer of the high bytes
    of its colour. For a model with three channels the image is NRGBA and an
    opaque pixel gives (R<<16)|(G<<8)|B of its stored channels; for any other
    channel count the image is Gray and a pixel of intensity Y gives
    (Y<<16)|(Y<<8)|Y. *)
Theorem image_features_packing `{Imaging} (mp : ModelParameters) (img : Image)
    (x y : nat) :
  (x < ImageInputWidth mp)%nat ->
  (y < ImageInputHeight mp)%nat ->
  image_features (ImageInputWidth mp) (ImageInputHeight mp) (normalize mp img)
    !! (y * ImageInputWidth mp + x)%nat
  = Some (pack_pixel (At_RGBA (normalize mp img) x y))
  ∧ (ImageChannelCount mp = 3 -> ∃ i, normalize mp img = ImageNRGBA i)
  ∧ (ImageChannelCount mp ≠ 3 -> ∃ i, normalize mp img = ImageGray i)
  ∧ (∀ c, cA c = xff ->
          pack_pixel (NRGBA_RGBA c) = rgb24 (u8 (cR c)) (u8 (cG c)) (u8 (cB c)))
  ∧ (∀ v, pack_pixel (Gray_RGBA v) = rgb24 (u8 v) (u8 v) (u8 v)).
Proof.
  intros Hx Hy. split; [apply image_features_lookup; assumption|].
  destruct (normalize_type mp img) as [H3 H1].
  split; [exact H3|]. split; [exact H1|].
  split; [exact pack_opaque|exact pack_gray].
Qed.

Lemma image_features_packing_witness :
  image_features 2 2 (normalize (H := demoImaging) demo_gray_params demo_gray_image)
    !! (1 * 2 + 0)%nat
  = Some (pack_pixel
            (At_RGBA (normalize (H := demoImaging) demo_gray_params demo_gray_image)
                     0 1))
  ∧ (ImageChannelCount demo_gray_params = 3 ->
     ∃ i, normalize (H := demoImaging) demo_gray_params demo_gray_image
          = ImageNRGBA i)
  ∧ (ImageChannelCount demo_gray_params ≠ 3 ->
     ∃ i, normalize (H := demoImaging) demo_gray_params demo_gray_image
          = ImageGray i)
  ∧ (∀ c, cA c = xff ->
          pack_pixel (NRGBA_RGBA c) = rgb24 (u8 (cR c)) (u8 (cG c)) (u8 (cB c)))
  ∧ (∀ v, pack_pixel (Gray_RGBA v) = rgb24 (u8 v) (u8 v) (u8 v)).
Proof.
  apply (image_features_packing (H := demoImaging) demo_gray_params
           demo_gray_image 0 1).
  - simpl. lia.
  - simpl. lia.
Defined.

(** C7 as stated fails for a model with one channel: the feature of a grey
    pixel is not its intensity. The pixel of intensity 1 gives 65793. *)
Lemma gray_feature_is_not_intensity :
  ¬ (∀ (mp : ModelParameters) (i : GrayImage) (x y : nat),
       ImageChannelCount mp = 1 ->
       (x < ImageInputWidth mp)%nat -> (y < ImageInputHeight mp)%nat ->
       image_features (ImageInputWidth mp) (ImageInputHeight mp)
         (normalize (H := demoImaging) mp (ImageGray i))
         !! (y * ImageInputWidth mp + x)%nat
       = Some (u8 (default x00 (g_pix i !! (y * g_width i + x)%nat)))).
Proof.
  intros Hclaim.
  specialize (Hclaim demo_gray_params (mkGrayImage 2 2 [x00; x01; x80; xff])
                1%nat 0%nat eq_refl).
  simpl in Hclaim. specialize (Hclaim ltac:(lia) ltac:(lia)).
  vm_compute in Hclaim. discriminate.
Qed.

(** ** The sliding window *)

Lemma samples_of_drop (k : nat) :
  ∀ bs, samples_of (drop (2 * k) bs) = drop k (samples_of bs).
Proof.
  induction k as [|k IH]; intros bs; [reflexivity|].
  replace (2 * S k)%nat with (S (S (2 * k))) by lia.
  destruct bs as [|b0 [|b1 bs]]; simpl; try rewrite drop_nil; try reflexivity.
  apply IH.
Qed.

Lemma samples_of_app (k : nat) :
  ∀ a b, length a = (2 * k)%nat ->
         samples_of (a ++ b) = samples_of a ++ samples_of b.
Proof.
  induction k as [|k IH]; intros a b Hl.
  - destruct a; [reflexivity|discriminate].
  - destruct a as [|b0 [|b1 a]]; simpl in Hl; try lia.
    simpl. f_equal. apply IH. lia.
Qed.

Lemma samples_of_length (k : nat) :
  ∀ bs, length bs = (2 * k)%nat -> length (samples_of bs) = k.
Proof.
  induction k as [|k IH]; intros bs Hl.
  - destruct bs; [reflexivity|discriminate].
  - destruct bs as [|b0 [|b1 bs]]; simpl in Hl; try lia.
    simpl. f_equal. apply IH. lia.
Qed.

Lemma samples_of_take (k : nat) :
  ∀ bs, (2 * k <= length bs)%nat ->
        samples_of (take (2 * k) bs) = take k (samples_of bs).
Proof.
  induction k as [|k IH]; intros bs Hl; [reflexivity|].
  replace (2 * S k)%nat with (S (S (2 * k))) by lia.
  destruct bs as [|b0 [|b1 bs]]; simpl in Hl; try lia.
  simpl. f_equal. apply IH. lia.
Qed.

Lemma take_S_insert {A : Type} (w : list A) :
  ∀ (start : nat) (v : A),
    (start < length w)%nat ->
    take (S start) (<[start := v]> w) = take start w ++ [v].
Proof.
  induction w as [|a w IH]; intros start v Hl; simpl in Hl; [lia|].
  destruct start as [|start]; [reflexivity|].
  simpl. f_equal. apply IH. lia.
Qed.

(** The store loop writes the first [k] samples of its reader at [start]. *)
Lemma write_samples_spec (k : nat) :
  ∀ (start : nat) (r : list byte) (w : list Z),
    (start + k <= length w)%nat ->
    (2 * k <= length r)%nat ->
    write_samples k start r w
    = Some (take start w ++ take k (samples_of r) ++ drop (start + k) w).
Proof.
  induction k as [|k IH]; intros start r w Hw Hr.
  - simpl. rewrite Nat.add_0_r, take_drop. reflexivity.
  - destruct r as [|b0 [|b1 r]]; simpl in Hr; try lia.
    simpl. case_decide; [|lia].
    rewrite IH by (rewrite ?length_insert; simpl; lia).
    f_equal.
    rewrite take_S_insert by lia.
    rewrite drop_insert_lt by lia.
    rewrite <- app_assoc. simpl.
    replace (S (start + k))%nat with (start + S k)%nat by lia. reflexivity.
Qed.

Lemma capture_window_step (isc : nat) (w : list Z) (count : nat)
    (h : list Z) (buf : list byte) :
  length buf = (2 * isc)%nat ->
  window_holds h w count ->
  ∃ w',
    capture_window isc w count buf
    = Some (w', (length w `min` (length h + isc))%nat)
    ∧ length w' = length w
    ∧ window_holds (h ++ samples_of buf) w' (length w `min` (length h + isc))%nat.
Proof.
  intros Hbuf [Hcount Htake].
  pose proof (samples_of_length isc buf Hbuf) as Hv.
  unfold capture_window, window_holds, most_recent in *.
  set (N := length w) in *.
  destruct (decide (N < isc)%nat) as [Hbig|Hsmall].
  - (* the interval is longer than the window *)
    assert (Hw1 : ∃ w1, (if decide (N < count + N)%nat
                         then (go_copy w (drop (count + N - N) w),
                               (count - (count + N - N))%nat,
                               (count - (count + N - N))%nat)
                         else (w, count, count)) = (w1, 0%nat, 0%nat)
                        ∧ length w1 = N).
    { case_decide.
      - eexists; split; [f_equal; [f_equal|]; lia|].
        unfold go_copy. rewrite length_app, length_take, !length_drop.
        fold N. lia.
      - exists w. split; [f_equal; [f_equal|]; lia|reflexivity]. }
    destruct Hw1 as (w1 & -> & Hlen1).
    rewrite write_samples_spec by (rewrite ?length_drop; lia).
    rewrite samples_of_drop. simpl.
    rewrite (drop_ge w1) by lia. rewrite app_nil_r.
    rewrite take_ge by (rewrite length_drop; lia).
    exists (drop (isc - N) (samples_of buf)).
    replace (N `min` (length h + isc))%nat with N by lia.
    split; [reflexivity|]. split; [rewrite length_drop; lia|].
    rewrite length_drop, !length_app.
    split; [lia|].
    rewrite take_ge by (rewrite length_drop; lia).
    rewrite drop_app_ge by lia. f_equal. lia.
  - destruct (decide (N < count + isc)%nat) as [Hover|Hfits].
    + (* the window overflows: shift the oldest samples out *)
      set (n := (count + isc - N)%nat).
      assert (Hgc : go_copy w (drop n w) = drop n w ++ drop (N - n) w).
      { unfold go_copy. fold N. rewrite length_drop. fold N.
        rewrite take_ge by (rewrite length_drop; fold N; lia). reflexivity. }
      rewrite Hgc.
      rewrite write_samples_spec
        by (rewrite ?length_app, ?length_drop; fold N; lia).
      replace (count - n)%nat with (N - isc)%nat by lia.
      rewrite take_app_le by (rewrite length_drop; fold N; lia).
      rewrite (take_ge (samples_of buf)) by lia.
      rewrite (drop_ge (drop n w ++ drop (N - n) w))
        by (rewrite length_app, !length_drop; fold N; lia).
      rewrite app_nil_r.
      exists (take (N - isc) (drop n w) ++ samples_of buf).
      replace (N `min` (length h + isc))%nat with N by lia.
      assert (Hlen' : length (take (N - isc) (drop n w) ++ samples_of buf) = N).
      { rewrite length_app, length_take, length_drop. fold N. lia. }
      split; [f_equal; f_equal; lia|]. split; [exact Hlen'|].
      rewrite Hlen', length_app.
      split; [lia|].
      rewrite take_ge by lia.
      rewrite drop_app_le by lia. f_equal.
      rewrite take_drop_commute.
      replace (n + (N - isc))%nat with count by lia.
      rewrite Htake, drop_drop. f_equal. lia.
    + (* there is room left *)
      rewrite write_samples_spec by (fold N; lia).
      rewrite (take_ge (samples_of buf)) by lia.
      exists (take count w ++ samples_of buf ++ drop (count + isc) w).
      assert (Hlen' : length (take count w ++ samples_of buf
                              ++ drop (count + isc) w) = N).
      { rewrite !length_app, length_take, length_drop. fold N. lia. }
      replace (N `min` (length h + isc))%nat with (count + isc)%nat by lia.
      split; [reflexivity|]. split; [exact Hlen'|].
      rewrite Hlen', length_app.
      split; [lia|].
      rewrite app_assoc.
      rewrite take_app_le
        by (rewrite length_app, length_take; fold N; lia).
      rewrite take_ge by (rewrite length_app, length_take; fold N; lia).
      rewrite Htake.
      rewrite drop_app_le by lia. f_equal. f_equal. lia.
Qed.

Lemma capture_run_spec (isc : nat) (K : nat) :
  ∀ (w : list Z) (count : nat) (h : list Z) (audio : list byte),
    length audio = (2 * isc * K)%nat ->
    window_holds h w count ->
    ∃ w',
      capture_run K isc w count audio
      = Some (w', (length w `min` (length h + K * isc))%nat)
      ∧ length w' = length w
      ∧ window_holds (h ++ samples_of audio) w'
          (length w `min` (length h + K * isc))%nat.
Proof.
  induction K as [|K IH]; intros w count h audio Hlen Hinv.
  - assert (audio = []) as -> by (destruct audio; [reflexivity|simpl in Hlen; lia]).
    simpl. rewrite app_nil_r, Nat.add_0_r.
    destruct Hinv as [Hc Ht]. exists w. rewrite <- Hc.
    split; [reflexivity|]. split; [reflexivity|]. split; assumption.
  - simpl. unfold read_full.
    destruct (decide (isc + (isc + 0) <= length audio)%nat) as [_|Hshort];
      [|lia].
    assert (Hbuf : length (take (isc + (isc + 0)) audio) = (2 * isc)%nat)
      by (rewrite length_take; lia).
    destruct (capture_window_step isc w count h _ Hbuf Hinv)
      as (w1 & -> & Hlen1 & Hinv1).
    assert (Hrest : length (drop (isc + (isc + 0)) audio) = (2 * isc * K)%nat)
      by (rewrite length_drop; lia).
    rewrite <- Hlen1 in Hinv1 |- *.
    destruct (IH w1 _ _ _ Hrest Hinv1) as (w2 & -> & Hlen2 & Hinv2).
    exists w2.
    rewrite length_app, (samples_of_length isc _ Hbuf) in *.
    rewrite <- app_assoc, <- (samples_of_app isc) in Hinv2 by exact Hbuf.
    rewrite take_drop in Hinv2.
    replace (length h + (isc + K * isc))%nat
      with (length h + isc + K * isc)%nat by lia.
    split; [reflexivity|]. split; [exact Hlen2|exact Hinv2].
Qed.

(** C5. After [K] interval reads of [intervalSampleCount] samples each, with
    at least a window's worth of samples read in all, the buffer of the
    audio classifier holds exactly the most recent [InputFeaturesCount]
    decoded samples of the stream in the order they came, whether or not the
    reads exceed the window together and whether or not one interval does;
    no store goes outside the buffer. *)
Theorem sliding_window_most_recent (isc N K : nat) (audio : list byte) :
  length audio = (2 * isc * K)%nat ->
  (N <= K * isc)%nat ->
  capture_run K isc (replicate N 0) 0 audio
  = Some (most_recent N (samples_of audio), N)
  ∧ length (most_recent N (samples_of audio)) = N.
Proof.
  intros Hlen Hfull.
  assert (Hinit : window_holds [] (replicate N 0) 0).
  { split; [simpl; lia|reflexivity]. }
  destruct (capture_run_spec isc K _ _ _ _ Hlen Hinit)
    as (w' & Hrun & Hlen' & Hc & Ht).
  rewrite length_replicate in *. simpl in *.
  replace (N `min` (K * isc))%nat with N in * by lia.
  rewrite take_ge in Ht by lia. subst w'.
  split; [exact Hrun|exact Hlen'].
Qed.

Lemma sliding_window_most_recent_witness :
  capture_run 3 2 (replicate 3%nat 0) 0
    [x01; x00; x02; x00; x03; x00; x04; x00; xff; xff; x00; x80]
  = Some (most_recent 3
            (samples_of
               [x01; x00; x02; x00; x03; x00; x04; x00; xff; xff; x00; x80]),
          3%nat)
  ∧ length (most_recent 3
              (samples_of
                 [x01; x00; x02; x00; x03; x00; x04; x00; xff; xff; x00; x80]))
    = 3%nat.
Proof.
  apply (sliding_window_most_recent 2 3 3
           [x01; x00; x02; x00; x03; x00; x04; x00; xff; xff; x00; x80]).
  - reflexivity.
  - lia.
Defined.

Example sliding_window_run :
  capture_run 3 2 (replicate 3%nat 0) 0
    [x01; x00; x02; x00; x03; x00; x04; x00; xff; xff; x00; x80]
  = Some ([4; -1; -32768], 3%nat).
Proof. vm_compute. reflexivity. Qed.

(** One interval longer than the window: only its end is kept. *)
Example sliding_window_long_interval :
  capture_run 1 4 (replicate 2%nat 0) 0
    [x01; x00; x02; x00; x03; x00; x04; x00]
  = Some ([3; 4], 2%nat).
Proof. vm_compute. reflexivity. Qed.

(** ** The audio classifier: its two goroutines *)

Section AudioProperties.
Context {RS : Type} `{Runner RS}.
Variable isc : nat.








End AudioProperties.

Lemma demo_audio_NewClassifier (stream : list byte)
    (responses : list ReadEvent) :
  audio_NewClassifier (H := RunnerProcess_Runner (H := demoJSON))
    (demo_runner SensorTypeMicrophone responses) (mkAudioRecorder stream 0) 2
  = (mkAudioRecorder stream 1, inl (demo_audio stream responses)).
Proof. reflexivity. Qed.



(** C2 in the audio classifier. The model answers the first window with a
    failure and would answer the next two with results. The run emits the
    event with the error of [Classify], then the classify goroutine is gone:
    the two later windows are dropped, the runner is not called again (its id
    stays 2 and the two responses stay unread), and the only other event is
    the read error at the end of the stream. *)
Theorem audio_classify_error_ends_classification :
  let st := audio_run (H := RunnerProcess_Runner (H := demoJSON)) 2
              demo_schedule
              (demo_audio demo_stream
                 [Data (framed demo_failed); Data (framed demo_ok);
                  Data (framed demo_ok)]) in
  a_received st
  = [error_event (ClassifyError (ErrClassifying "boom"));
     error_event (ReadingAudio ErrEOF)]
  ∧ a_wrk st = WrkExited
  ∧ a_cap st = CapStopped
  ∧ a_window st = [5; 6; 7; 8]
  ∧ lastID (a_runner st) = 2
  ∧ (incoming <$> conn (a_runner st))
    = Some [Data (framed demo_ok); Data (framed demo_ok)].
Proof. vm_compute. repeat split; reflexivity. Qed.

(** ** The image classifier: its loop *)

(** The loop of the image classifier goes on after an error of [Classify],
    and after the error of an image event: one event out per event in. *)
Lemma image_loop_continues {RS : Type} `{Runner RS} `{Imaging}
    (mp : ModelParameters) (ievs : list ImageEvent) :
  ∀ st : ImageLoop RS,
    il_running st = true ->
    il_running (image_loop mp st (map REvent ievs)) = true
    ∧ length (il_events (image_loop mp st (map REvent ievs)))
      = (length (il_events st) + length ievs)%nat.
Proof.
  induction ievs as [|iev ievs IH]; intros st Hrun; cbn [image_loop map length].
  - split; [exact Hrun|lia].
  - rewrite Hrun.
    assert (il_running (image_turn mp st (REvent iev)) = true
            ∧ length (il_events (image_turn mp st (REvent iev)))
              = S (length (il_events st))) as [Hr Hl].
    { unfold image_turn. destruct (iev_Err iev).
      - simpl. rewrite length_app. simpl. split; [reflexivity|lia].
      - destruct (runner_Classify _ _) as [[rs resp] [e|]]; simpl;
          rewrite length_app; simpl; split; try reflexivity; lia. }
    destruct (IH _ Hr) as [Hr' Hl']. split; [exact Hr'|]. rewrite Hl', Hl. lia.
Qed.

Lemma image_turn_classify_error {RS : Type} `{Runner RS} `{Imaging}
    (mp : ModelParameters) (st : ImageLoop RS) (img : Image) (rs : RS)
    (resp : option RunnerClassifyResponse) (e : RunnerError) :
  runner_Classify (il_runner st)
    (image_features (ImageInputWidth mp) (ImageInputHeight mp)
       (normalize mp img)) = (rs, resp, Some e) ->
  image_turn mp st (REvent (mkImageEvent None img))
  = mkImageLoop rs (il_seq st) true
      (il_events st ++ [mkImageClassifyEvent (Some (ClassifyError e)) None None]).
Proof. intros Hc. unfold image_turn. simpl. rewrite Hc. reflexivity. Qed.

(** ** Two callers: the mutex *)

Section Mutex.
Context `{JSON}.

Lemma completes_start (r : RunnerProcess) (data : list Z) (m : bool) :
  completes r (CallNextID data) r data.
Proof.
  split; [reflexivity|]. simpl.
  destruct (Classify r data) as [[r' resp] err].
  exists r', (resp, err). split; reflexivity.
Qed.

(** A step inside the transaction leaves what it will come to unchanged,
    and keeps the mutex. *)
Lemma caller_next_finish (sh sh' : Shared) (c c' : Caller) :
  in_flight c = true ->
  (∀ res, c ≠ CallUnlock res) ->
  caller_next sh c = Some (sh', c') ->
  finish (sh_runner sh') c' = finish (sh_runner sh) c
  ∧ sh_mutex sh' = sh_mutex sh
  ∧ in_flight c' = true.
Proof.
  intros Hfl Hnu Hn. destruct sh as [m r]. destruct c; simpl in *;
    try discriminate.
  - (* nextID *)
    injection Hn as <- <-. simpl. split; [|auto].
    unfold Classify, transact. simpl.
    destruct (conn r) as [c0|]; [|reflexivity].
    destruct (conn_write _ c0) as [c1 [e|]]; [reflexivity|].
    destruct (await_response _ _ c1) as [[r' resp] err]. reflexivity.
  - (* a byte of the request *)
    destruct (conn r) as [c0|] eqn:Hc; [|injection Hn as <- <-; simpl; auto].
    destruct (conn_closed c0) eqn:Hcl.
    + injection Hn as <- <-. simpl. split; [|auto].
      unfold conn_write. rewrite Hcl. reflexivity.
    + destruct todo as [|b todo]; injection Hn as <- <-; simpl.
      * rewrite Hc. split; [|auto]. unfold conn_write. rewrite Hcl.
        destruct c0 as [inc out cl]. simpl in *. subst cl.
        rewrite app_nil_r. reflexivity.
      * split; [|auto]. unfold conn_write. rewrite Hcl. simpl.
        rewrite <- app_assoc. simpl. reflexivity.
  - (* the response *)
    destruct (conn r) as [c1|] eqn:Hc; [|injection Hn as <- <-; simpl; auto].
    destruct (await_response _ r c1) as [[r' resp] err].
    injection Hn as <- <-. simpl. auto.
  - exfalso. eapply Hnu. reflexivity.
Qed.

Lemma completes_step (sh sh' : Shared) (c c' : Caller)
    (r_start : RunnerProcess) (data : list Z) :
  completes (sh_runner sh) c r_start data ->
  (∀ res, c ≠ CallUnlock res) ->
  caller_next sh c = Some (sh', c') ->
  completes (sh_runner sh') c' r_start data ∧ sh_mutex sh' = sh_mutex sh.
Proof.
  intros [Hfl (r' & res & Hf & Hc)] Hnu Hn.
  destruct (caller_next_finish _ _ _ _ Hfl Hnu Hn) as (Hf' & Hm & Hfl').
  split; [|exact Hm]. split; [exact Hfl'|].
  exists r', res. rewrite Hf'. auto.
Qed.

Lemma completes_unlock (r r_start : RunnerProcess) (res : CallResult)
    (data : list Z) :
  completes r (CallUnlock res) r_start data ->
  Classify r_start data = (r, res.1, res.2).
Proof.
  intros [_ (r' & res' & Hf & Hc)]. simpl in Hf. injection Hf as <- <-.
  exact Hc.
Qed.

Lemma completes_in_flight (r r_start : RunnerProcess) (c : Caller)
    (data : list Z) :
  completes r c r_start data -> in_flight c = true.
Proof. intros [Hfl _]. exact Hfl. Qed.

Lemma pair_inv_next (r0 : RunnerProcess) (dA dB : list Z) (w : Who)
    (p p' : Pair) :
  pair_inv r0 dA dB p -> pair_next w p = Some p' -> pair_inv r0 dA dB p'.
Proof.
  intros Hinv Hn.
  destruct Hinv as [ |r c Hc|r res Hc|r1 resA r c HA Hc|r c Hc|r res Hc
                    |r1 resB r c HB Hc|r1 resA r resB HA HB
                    |r1 resA r resB HB HA];
    destruct w; simpl in Hn; try discriminate.
  - (* idle, A locks *)
    injection Hn as <-. apply inv_A_flying. apply (completes_start _ _ true).
  - injection Hn as <-. apply inv_B_flying. apply (completes_start _ _ true).
  - (* A under way *)
    destruct (caller_next (mkShared true r) c) as [[sh c']|] eqn:Hs;
      [|discriminate].
    injection Hn as <-.
    destruct c; try (exfalso; apply completes_in_flight in Hc; discriminate);
      try (destruct (completes_step (mkShared true r) _ _ _ _ _ Hc ltac:(intros ?; discriminate) Hs)
             as [Hc' Hm]; destruct sh as [m r']; simpl in Hm; subst m;
           apply inv_A_flying; exact Hc').
    simpl in Hs. injection Hs as <- <-.
    apply inv_A_done. apply completes_unlock. exact Hc.
  - (* A done, B locks *)
    injection Hn as <-. eapply inv_AB_flying; [exact Hc|].
    apply (completes_start _ _ true).
  - (* A done, B under way *)
    destruct (caller_next (mkShared true r) c) as [[sh c']|] eqn:Hs;
      [|discriminate].
    injection Hn as <-.
    destruct c; try (exfalso; apply completes_in_flight in Hc; discriminate);
      try (destruct (completes_step (mkShared true r) _ _ _ _ _ Hc ltac:(intros ?; discriminate) Hs)
             as [Hc' Hm]; destruct sh as [m r']; simpl in Hm; subst m;
           eapply inv_AB_flying; [exact HA|exact Hc']).
    simpl in Hs. injection Hs as <- <-.
    eapply inv_AB_done; [exact HA|]. apply completes_unlock. exact Hc.
  - (* B under way *)
    destruct (caller_next (mkShared true r) c) as [[sh c']|] eqn:Hs;
      [|discriminate].
    injection Hn as <-.
    destruct c; try (exfalso; apply completes_in_flight in Hc; discriminate);
      try (destruct (completes_step (mkShared true r) _ _ _ _ _ Hc ltac:(intros ?; discriminate) Hs)
             as [Hc' Hm]; destruct sh as [m r']; simpl in Hm; subst m;
           apply inv_B_flying; exact Hc').
    simpl in Hs. injection Hs as <- <-.
    apply inv_B_done. apply completes_unlock. exact Hc.
  - (* B done, A locks *)
    injection Hn as <-. eapply inv_BA_flying; [exact Hc|].
    apply (completes_start _ _ true).
  - (* B done, A under way *)
    destruct (caller_next (mkShared true r) c) as [[sh c']|] eqn:Hs;
      [|discriminate].
    injection Hn as <-.
    destruct c; try (exfalso; apply completes_in_flight in Hc; discriminate);
      try (destruct (completes_step (mkShared true r) _ _ _ _ _ Hc ltac:(intros ?; discriminate) Hs)
             as [Hc' Hm]; destruct sh as [m r']; simpl in Hm; subst m;
           eapply inv_BA_flying; [exact HB|exact Hc']).
    simpl in Hs. injection Hs as <- <-.
    eapply inv_BA_done; [exact HB|]. apply completes_unlock. exact Hc.
Qed.

Lemma pair_inv_run (r0 : RunnerProcess) (dA dB : list Z) (sched : list Who) :
  ∀ p, pair_inv r0 dA dB p -> pair_inv r0 dA dB (pair_run sched p).
Proof.
  induction sched as [|w sched IH]; intros p Hinv; simpl; [exact Hinv|].
  destruct (pair_next w p) as [p'|] eqn:Hn; [|apply IH; exact Hinv].
  apply IH. eapply pair_inv_next; eassumption.
Qed.

End Mutex.

(** Two calls one after the other on an open connection write their two
    requests one after the other. *)
Lemma Classify_twice_outgoing `{JSON} (r0 r1 r2 : RunnerProcess) (c0 : Conn)
    (d1 d2 : list Z) (res1 res2 : CallResult) :
  conn r0 = Some c0 ->
  conn_closed c0 = false ->
  Classify r0 d1 = (r1, res1.1, res1.2) ->
  Classify r1 d2 = (r2, res2.1, res2.2) ->
  ∃ c, conn r2 = Some c
       ∧ outgoing c
         = outgoing c0
           ++ request_bytes (wrap64 (lastID r0 + 1)) d1
           ++ request_bytes (wrap64 (wrap64 (lastID r0 + 1) + 1)) d2.
Proof.
  intros Hc0 Hopen H1 H2.
  destruct (Classify_open r0 c0 d1 Hc0 Hopen)
    as (r1' & resp1 & err1 & c1 & Hcl1 & _ & Hconn1 & Ho1 & Hopen1 & Hid1).
  rewrite H1 in Hcl1. injection Hcl1 as <- _ _.
  destruct (Classify_open r1 c1 d2 Hconn1 Hopen1)
    as (r2' & resp2 & err2 & c2 & Hcl2 & _ & Hconn2 & Ho2 & _ & _).
  rewrite H2 in Hcl2. injection Hcl2 as <- _ _.
  exists c2. split; [exact Hconn2|].
  rewrite Ho2, Ho1, Hid1, <- app_assoc. reflexivity.
Qed.

(** C9. Two callers of [Classify] on one runner, scheduled in any way: at no
    time are both between [Lock] and [Unlock], so at most one transaction is
    in flight; and once both have returned, the runner and the two results
    are those of the two calls made one after the other, in one of the two
    orders. On an open connection the model process has then been sent the
    two requests whole, one after the other. *)
Theorem classify_calls_serialized `{JSON} (r0 : RunnerProcess)
    (dA dB : list Z) (sched : list Who) :
  let p := pair_run sched (pair_start r0 dA dB) in
  let id1 := wrap64 (lastID r0 + 1) in
  let id2 := wrap64 (id1 + 1) in
  in_flight (callerA p) && in_flight (callerB p) = false
  ∧ sh_mutex (shared p) = in_flight (callerA p) || in_flight (callerB p)
  ∧ ∀ resA resB,
      callerA p = CallDone resA ->
      callerB p = CallDone resB ->
      (∃ r1,
          Classify r0 dA = (r1, resA.1, resA.2)
          ∧ Classify r1 dB = (sh_runner (shared p), resB.1, resB.2)
          ∧ ∀ c0, conn r0 = Some c0 -> conn_closed c0 = false ->
                  ∃ c, conn (sh_runner (shared p)) = Some c
                       ∧ outgoing c = outgoing c0 ++ request_bytes id1 dA
                                        ++ request_bytes id2 dB)
      ∨ (∃ r1,
            Classify r0 dB = (r1, resB.1, resB.2)
            ∧ Classify r1 dA = (sh_runner (shared p), resA.1, resA.2)
            ∧ ∀ c0, conn r0 = Some c0 -> conn_closed c0 = false ->
                    ∃ c, conn (sh_runner (shared p)) = Some c
                         ∧ outgoing c = outgoing c0 ++ request_bytes id1 dB
                                          ++ request_bytes id2 dA).
Proof.
  intros p id1 id2.
  assert (Hinv : pair_inv r0 dA dB p)
    by (apply pair_inv_run; apply inv_idle).
  destruct Hinv as [ |r c Hc|r res Hc|r1 rA r c HA Hc|r c Hc|r res Hc
                    |r1 rB r c HB Hc|r1 rA r rB HA HB
                    |r1 rA r rB HB HA]; simpl;
    try (apply completes_in_flight in Hc; rewrite Hc);
    (split; [try reflexivity; apply andb_false_r|]);
    (split; [try reflexivity; symmetry; apply orb_true_r|]);
    intros resA resB HdA HdB; try discriminate;
    try (subst c; discriminate).
  - injection HdA as <-. injection HdB as <-. left. exists r1.
    split; [exact HA|]. split; [exact HB|].
    intros c0 Hc0 Hopen.
    exact (Classify_twice_outgoing r0 r1 r c0 dA dB rA rB Hc0 Hopen HA HB).
  - injection HdA as <-. injection HdB as <-. right. exists r1.
    split; [exact HB|]. split; [exact HA|].
    intros c0 Hc0 Hopen.
    exact (Classify_twice_outgoing r0 r1 r c0 dB dA rB rA Hc0 Hopen HB HA).
Qed.

Lemma classify_calls_serialized_witness :
  let r0 := demo_runner SensorTypeMicrophone
              [Data (framed demo_ok); Data (framed demo_failed)] in
  let p := pair_run (H := demoJSON) demo_pair_schedule
             (pair_start r0 [7] [9]) in
  in_flight (callerA p) && in_flight (callerB p) = false
  ∧ sh_mutex (shared p) = in_flight (callerA p) || in_flight (callerB p)
  ∧ ∀ resA resB,
      callerA p = CallDone resA ->
      callerB p = CallDone resB ->
      (∃ r1,
          Classify (H := demoJSON) r0 [7] = (r1, resA.1, resA.2)
          ∧ Classify (H := demoJSON) r1 [9]
            = (sh_runner (shared p), resB.1, resB.2)
          ∧ ∀ c0, conn r0 = Some c0 -> conn_closed c0 = false ->
                  ∃ c, conn (sh_runner (shared p)) = Some c
                       ∧ outgoing c
                         = outgoing c0 ++ request_bytes (H := demoJSON) 2 [7]
                             ++ request_bytes (H := demoJSON) 3 [9])
      ∨ (∃ r1,
            Classify (H := demoJSON) r0 [9] = (r1, resB.1, resB.2)
            ∧ Classify (H := demoJSON) r1 [7]
              = (sh_runner (shared p), resA.1, resA.2)
            ∧ ∀ c0, conn r0 = Some c0 -> conn_closed c0 = false ->
                    ∃ c, conn (sh_runner (shared p)) = Some c
                         ∧ outgoing c
                           = outgoing c0 ++ request_bytes (H := demoJSON) 2 [9]
                               ++ request_bytes (H := demoJSON) 3 [7]).
Proof.
  intros r0 p.
  exact (classify_calls_serialized (H := demoJSON) r0 [7] [9]
           demo_pair_schedule).
Defined.

(** The run of [demo_pair_schedule]: both callers have returned, B with the
    first response and A with the second, and the connection holds B's
    request under id 2 followed by A's under id 3. *)
Example demo_pair_run :
  let p := pair_run (H := demoJSON) demo_pair_schedule
             (pair_start
                (demo_runner SensorTypeMicrophone
                   [Data (framed demo_ok); Data (framed demo_failed)])
                [7] [9]) in
  callerB p = CallDone (Some (demo_response true), None)
  ∧ callerA p = CallDone (Some (demo_response false),
                          Some (ErrClassifying "boom"))
  ∧ (outgoing <$> conn (sh_runner (shared p)))
    = Some ([x7b; x63; x09; x7d; x0a] ++ [x7b; x63; x07; x7d; x0a])
  ∧ lastID (sh_runner (shared p)) = 3.
Proof. vm_compute. repeat split; reflexivity. Qed.

(* ===================================================================== *)
(** * Part III: further properties of the code *)
(* ===================================================================== *)

(** ** Transaction ids *)

Lemma wrap64_add (a b : Z) : wrap64 (wrap64 a + b) = wrap64 (a + b).
Proof.
  unfold wrap64. f_equal.
  replace ((a + 2 ^ 63) mod 2 ^ 64 - 2 ^ 63 + b + 2 ^ 63)
    with ((a + 2 ^ 63) mod 2 ^ 64 + b) by lia.
  rewrite Zplus_mod_idemp_l. f_equal. lia.
Qed.

Lemma wrap64_small (z : Z) : - 2 ^ 63 <= z < 2 ^ 63 -> wrap64 z = z.
Proof. intros Hz. unfold wrap64. rewrite Z.mod_small by lia. lia. Qed.

Lemma await_response_lastID {R : Type} `{runnerResponser R}
    (unmarshal : list byte -> option R) (r : RunnerProcess) (c1 : Conn) :
  lastID (await_response unmarshal r c1).1.1 = lastID r.
Proof.
  destruct (await_response unmarshal r c1) as [[r' resp] err] eqn:Ha.
  destruct (await_response_outgoing _ _ _ _ _ _ Ha) as (c' & _ & _ & _ & Hid).
  exact Hid.
Qed.

Lemma transact_lastID `{JSON} {R : Type} `{runnerResponser R}
    (unmarshal : list byte -> option R) (r : RunnerProcess) (id : Z)
    (req : Request) :
  lastID (transact unmarshal r id req).1.1 = lastID r.
Proof.
  unfold transact. destruct (conn r) as [c|]; [|reflexivity].
  destruct (conn_write (marshal req) c) as [c1 [e|]]; [reflexivity|].
  apply await_response_lastID.
Qed.

Lemma Classify_lastID `{JSON} (r : RunnerProcess) (data : list Z) :
  lastID (Classify r data).1.1 = wrap64 (lastID r + 1).
Proof. unfold Classify. simpl. rewrite transact_lastID. reflexivity. Qed.

Lemma wrap64_range (z : Z) : - 2 ^ 63 <= wrap64 z < 2 ^ 63.
Proof.
  unfold wrap64. pose proof (Z.mod_pos_bound (z + 2 ^ 63) (2 ^ 64)). lia.
Qed.

(** X1. Every call of [Classify] takes one id, whether it succeeds or fails
    in writing, reading or in the model: after the calls of [eimclassify]
    for [n] inputs the last id has moved on by [n] (with the wrap-around of
    [int64]), and there is one result for every input. *)
Theorem classify_all_ids `{JSON} (datas : list (list Z)) :
  ∀ r : RunnerProcess,
    - 2 ^ 63 <= lastID r < 2 ^ 63 ->
    lastID (classify_all r datas).1 = wrap64 (lastID r + Z.of_nat (length datas))
    ∧ length (classify_all r datas).2 = length datas
    ∧ (lastID r + Z.of_nat (length datas) < 2 ^ 63 ->
       lastID (classify_all r datas).1 = lastID r + Z.of_nat (length datas)).
Proof.
  assert (Hmain : ∀ r : RunnerProcess,
             - 2 ^ 63 <= lastID r < 2 ^ 63 ->
             lastID (classify_all r datas).1
             = wrap64 (lastID r + Z.of_nat (length datas))
             ∧ length (classify_all r datas).2 = length datas).
  { induction datas as [|data datas IH]; intros r Hr.
    - simpl. rewrite Z.add_0_r, wrap64_small by exact Hr. auto.
    - cbn [classify_all].
      pose proof (Classify_lastID r data) as Hid.
      destruct (Classify r data) as [[r1 resp] err]. simpl in Hid.
      assert (Hr1 : - 2 ^ 63 <= lastID r1 < 2 ^ 63)
        by (rewrite Hid; apply wrap64_range).
      destruct (IH r1 Hr1) as [Hl Hn].
      destruct (classify_all r1 datas) as [r2 results]. simpl in *.
      split; [|lia].
      rewrite Hl, Hid, wrap64_add. f_equal. lia. }
  intros r Hr. destruct (Hmain r Hr) as [Hl Hn].
  split; [exact Hl|]. split; [exact Hn|].
  intros Hsmall. rewrite Hl. apply wrap64_small. lia.
Qed.

Lemma classify_all_ids_witness :
  let r := demo_runner SensorTypeMicrophone
             [Data (framed demo_failed); Fail ErrTimeout] in
  lastID (classify_all (H := demoJSON) r [[1]; [2]; [3]]).1
  = wrap64 (1 + Z.of_nat 3)
  ∧ length (classify_all (H := demoJSON) r [[1]; [2]; [3]]).2 = 3%nat
  ∧ (1 + Z.of_nat 3 < 2 ^ 63 ->
     lastID (classify_all (H := demoJSON) r [[1]; [2]; [3]]).1
     = 1 + Z.of_nat 3).
Proof.
  intros r.
  apply (classify_all_ids (H := demoJSON) [[1]; [2]; [3]] r).
  simpl. lia.
Defined.

(** ** Shutdown, and calls after it *)

Lemma filter_ne_idemp (d : string) (l : list string) :
  filter (fun x => x ≠ d) (filter (fun x => x ≠ d) l) = filter (fun x => x ≠ d) l.
Proof.
  induction l as [|a l IH]; [reflexivity|].
  rewrite filter_cons. case_decide.
  - rewrite filter_cons. case_decide; [|contradiction]. f_equal. exact IH.
  - exact IH.
Qed.

Lemma filter_ne_not_elem (d : string) (l : list string) :
  d ∉ filter (fun x => x ≠ d) l.
Proof. intros Hin. apply list_elem_of_filter in Hin as [Hne _]. congruence. Qed.

(** X2. [Close] stops the model process when one was started, closes the
    connection and, unless the removal fails, removes the temporary
    directory; a second [Close] changes neither the runner nor the system
    around it. *)
Theorem Close_idempotent (s : Sys) (r : RunnerProcess) :
  let s1 := (Close s r).1.1.1 in
  let r1 := (Close s r).1.1.2 in
  (Close s1 r1).1.1.1 = s1
  ∧ (Close s1 r1).1.1.2 = r1
  ∧ (cancel r = true -> proc_alive s1 = false)
  ∧ (∀ c, conn r = Some c ->
          ∃ c1, conn r1 = Some c1 ∧ conn_closed c1 = true
                ∧ incoming c1 = incoming c ∧ outgoing c1 = outgoing c)
  ∧ (tempDir r ≠ EmptyString -> rm_fails s = false -> tempDir r ∉ dirs s1).
Proof.
  destruct s as [alive ds rmf], r as [mp pj op td cn co lid].
  destruct co as [[inc out cl]|]; [destruct cl|]; destruct cn, rmf;
    cbv [Close conn_close remove_all set_conn fst snd
         modelParams project opts tempDir cancel conn lastID
         proc_alive dirs rm_fails incoming outgoing conn_closed omap
         list_omap id];
    destruct (decide (td = EmptyString)) as [Htd|Htd];
    cbv [fst snd proc_alive dirs rm_fails conn tempDir];
    try (destruct (decide (td = EmptyString)) as [Htd'|Htd'];
         [try contradiction|try contradiction]);
    cbv [fst snd proc_alive dirs rm_fails conn tempDir];
    rewrite ?filter_ne_idemp;
    repeat split; try reflexivity; try discriminate; try contradiction;
    try (intros c [= <-]; eexists; repeat split; reflexivity);
    try (intros _ _; apply filter_ne_not_elem).
Qed.

(** X3. After [Close], [Classify] fails in writing the request: nothing goes
    out on the connection and nothing is read from it. *)
Theorem Classify_after_Close `{JSON} (s : Sys) (r : RunnerProcess) (c : Conn)
    (data : list Z) :
  conn r = Some c ->
  let r1 := (Close s r).1.1.2 in
  ∃ r2 c2,
    Classify r1 data = (r2, None, Some (ErrWritingJSON ErrClosed))
    ∧ conn r2 = Some c2
    ∧ conn_closed c2 = true
    ∧ incoming c2 = incoming c
    ∧ outgoing c2 = outgoing c.
Proof.
  intros Hc. unfold Close. rewrite Hc.
  unfold conn_close.
  destruct (decide (tempDir r = EmptyString));
    [|destruct (remove_all _ _)];
    destruct (conn_closed c) eqn:Hcl; simpl;
    unfold Classify, transact, conn_write; simpl; rewrite ?Hcl;
    eexists _, _; repeat split; try reflexivity; simpl; auto.
Qed.

Lemma Classify_after_Close_witness :
  let r := demo_runner SensorTypeMicrophone [Data (framed demo_ok)] in
  let r1 := (Close demo_sys r).1.1.2 in
  ∃ r2 c2,
    Classify (H := demoJSON) r1 [4]
    = (r2, None, Some (ErrWritingJSON ErrClosed))
    ∧ conn r2 = Some c2
    ∧ conn_closed c2 = true
    ∧ incoming c2 = [Data (framed demo_ok)]
    ∧ outgoing c2 = [].
Proof.
  intros r r1.
  exact (Classify_after_Close (H := demoJSON) demo_sys r
           (mkConn [Data (framed demo_ok)] [] false) [4] eq_refl).
Defined.

Lemma Close_idempotent_witness :
  let s := mkSys true ["/tmp/x"%string] false in
  let r := mkRunnerProcess zeroModelParameters zeroProject zeroRunnerOpts
             "/tmp/x"%string true (Some (mkConn [] [] false)) 1 in
  let s1 := (Close s r).1.1.1 in
  let r1 := (Close s r).1.1.2 in
  (Close s1 r1).1.1.1 = s1
  ∧ (Close s1 r1).1.1.2 = r1
  ∧ (cancel r = true -> proc_alive s1 = false)
  ∧ (∀ c, conn r = Some c ->
          ∃ c1, conn r1 = Some c1 ∧ conn_closed c1 = true
                ∧ incoming c1 = incoming c ∧ outgoing c1 = outgoing c)
  ∧ (tempDir r ≠ EmptyString -> rm_fails s = false -> tempDir r ∉ dirs s1).
Proof.
  intros s r.
  exact (Close_idempotent s r).
Defined.

(** ** Construction *)

Lemma dial_loop_from (d : nat -> DialResult) (fuel : nat) :
  ∀ i k : nat,
    (k + fuel = 1000)%nat ->
    (k <= i)%nat -> (i <= 1000)%nat ->
    (∀ j, (k <= j < i)%nat -> d j = DialENOENT) ->
    dial_loop d fuel k =
    match d i with
    | DialOk c => inl c
    | DialErr => inr ErrOpeningSocket
    | DialENOENT => if (i =? 1000)%nat then inr ErrNoSocket
                    else dial_loop d (fuel - (i - k)) i
    end.
Proof.
  induction fuel as [|fuel IH]; intros i k Hk Hki Hi Hbefore.
  - assert (i = k) as -> by lia.
    unfold dial_loop. destruct (d k); try reflexivity.
    replace (k =? 1000)%nat with true by (symmetry; apply Nat.eqb_eq; lia).
    reflexivity.
  - destruct (decide (i = k)) as [->|Hne].
    + destruct (d k) eqn:Hd; unfold dial_loop; fold dial_loop; rewrite Hd;
        try reflexivity.
      destruct (k =? 1000)%nat eqn:Hk1; [reflexivity|].
      replace (S fuel - (k - k))%nat with (S fuel) by lia.
      unfold dial_loop at 2; fold dial_loop. rewrite Hd, Hk1. reflexivity.
    + unfold dial_loop; fold dial_loop.
      rewrite (Hbefore k) by lia.
      replace (k =? 1000)%nat with false by (symmetry; apply Nat.eqb_neq; lia).
      rewrite (IH i (S k)) by (try lia; intros j Hj; apply Hbefore; lia).
      replace (fuel - (i - S k))%nat with (S fuel - (i - k))%nat by lia.
      reflexivity.
Qed.

(** X4. The dial loop of [NewRunnerProcess] tries the socket at most 1001
    times, [i] from 0 to 1000. While the socket file is missing it goes on; the
    first other answer decides: a connection is taken, any other error ends
    the construction at once. A socket missing at all 1001 tries gives the
    error of no socket, whatever a later dial would have found. *)
Theorem dial_loop_bound (d : nat -> DialResult) (i : nat) :
  (i <= 1000)%nat ->
  (∀ j, (j < i)%nat -> d j = DialENOENT) ->
  (∀ c, d i = DialOk c -> dial_loop d 1000 0 = inl c)
  ∧ (d i = DialErr -> dial_loop d 1000 0 = inr ErrOpeningSocket)
  ∧ (i = 1000%nat -> d i = DialENOENT -> dial_loop d 1000 0 = inr ErrNoSocket).
Proof.
  intros Hi Hbefore.
  pose proof (dial_loop_from d 1000 i 0 eq_refl ltac:(lia) Hi
                ltac:(intros j Hj; apply Hbefore; lia)) as Hl.
  split; [|split].
  - intros c Hc. rewrite Hl, Hc. reflexivity.
  - intros He. rewrite Hl, He. reflexivity.
  - intros -> He. rewrite Hl, He. reflexivity.
Qed.

Lemma dial_loop_bound_witness :
  let d := fun i : nat =>
             if (i <? 1000)%nat then DialENOENT
             else if (i =? 1000)%nat then DialOk (mkConn [] [] false)
             else DialErr in
  (∀ c, d 1000%nat = DialOk c -> dial_loop d 1000 0 = inl c)
  ∧ (d 1000%nat = DialErr -> dial_loop d 1000 0 = inr ErrOpeningSocket)
  ∧ (1000%nat = 1000%nat -> d 1000%nat = DialENOENT ->
     dial_loop d 1000 0 = inr ErrNoSocket).
Proof.
  intros d.
  apply (dial_loop_bound d 1000).
  - lia.
  - intros j Hj. unfold d.
    replace (j <? 1000)%nat with true by (symmetry; apply Nat.ltb_lt; lia).
    reflexivity.
Defined.

Lemma await_response_fields {R : Type} `{runnerResponser R}
    (unmarshal : list byte -> option R) (r : RunnerProcess) (c1 : Conn) :
  let r' := (await_response unmarshal r c1).1.1 in
  cancel r' = cancel r ∧ tempDir r' = tempDir r ∧ opts r' = opts r
  ∧ modelParams r' = modelParams r ∧ project r' = project r.
Proof.
  unfold await_response.
  destruct (decode c1) as [c2 [[value buffered]|e]]; [|simpl; auto].
  destruct (unmarshal value) as [x|]; [|simpl; auto].
  destruct (Success (runnerResponse x)); simpl; auto.
Qed.

Lemma transact_fields `{JSON} {R : Type} `{runnerResponser R}
    (unmarshal : list byte -> option R) (r : RunnerProcess) (id : Z)
    (req : Request) :
  let r' := (transact unmarshal r id req).1.1 in
  cancel r' = cancel r ∧ tempDir r' = tempDir r ∧ opts r' = opts r
  ∧ modelParams r' = modelParams r ∧ project r' = project r.
Proof.
  unfold transact. destruct (conn r) as [c|]; [|simpl; auto].
  destruct (conn_write (marshal req) c) as [c1 [e|]]; [simpl; auto|].
  apply await_response_fields.
Qed.


Lemma filter_ne_app_fresh (d : string) (l : list string) :
  d ∉ l -> filter (fun x => x ≠ d) (l ++ [d]) = l.
Proof.
  intros Hd. rewrite filter_app.
  assert (Hl : filter (fun x => x ≠ d) l = l).
  { induction l as [|a l IH]; [reflexivity|].
    apply not_elem_of_cons in Hd as [Hne Hd].
    rewrite filter_cons. case_decide; [|congruence]. f_equal. exact (IH Hd). }
  rewrite Hl, filter_cons. case_decide; [congruence|]. apply app_nil_r.
Qed.

(** The state [Close] leaves when the deferred function of
    [NewRunnerProcess] runs on a runner with the cancel function set. *)
Lemma fail_closing_started (s : Sys) (r : RunnerProcess) (e : RunnerError) :
  cancel r = true ->
  rm_fails s = false ->
  ∃ ds, fail_closing s r e = (mkSys false ds false, inr e)
        ∧ ds = if decide (tempDir r = EmptyString) then dirs s
               else filter (fun x => x ≠ tempDir r) (dirs s).
Proof.
  intros Hc Hrm. unfold fail_closing, Close. rewrite Hc.
  destruct (conn r) as [c|]; [destruct (conn_close c)|];
    destruct (decide (tempDir r = EmptyString)); unfold remove_all; simpl;
    rewrite ?Hrm; eexists; split; try reflexivity; simpl; rewrite ?Hrm;
    reflexivity.
Qed.

(** X5. A construction that fails leaves nothing behind: when
    [NewRunnerProcess] returns an error on a system where no model process
    ran and directories can be removed, no model process runs afterwards and
    the temporary directory it may have made is gone again. *)
Theorem NewRunnerProcess_failure_cleans_up `{JSON} (env : Env) (s s' : Sys)
    (o : option RunnerOpts) (e : RunnerError) :
  proc_alive s = false ->
  rm_fails s = false ->
  (∀ d, temp_dir env = Some d -> d ≠ EmptyString ∧ d ∉ dirs s) ->
  NewRunnerProcess env s o = (s', inr e) ->
  proc_alive s' = false ∧ dirs s' = dirs s.
Proof.
  intros Halive Hrm Hfresh.
  unfold NewRunnerProcess.
  destruct (abs_ok env); cbn [negb]; [|intros [= <- _]; auto].
  set (o0 := match o with Some x => x | None => zeroRunnerOpts end).
  destruct (decide (WorkDir o0 = EmptyString)) as [Hw|Hw].
  - destruct (temp_dir env) as [d|] eqn:Htd.
    + destruct (Hfresh d eq_refl) as [Hne Hnotin].
      destruct (start_ok env); cbn [negb].
      * destruct (dial_loop (dial env) 1000 0) as [c|e0].
        -- cbv beta iota zeta delta [nextID].
           match goal with
           | |- context [transact unmarshal_hello ?r4 ?id ?q] =>
               pose proof (transact_fields unmarshal_hello r4 id q) as Hfields;
               destruct (transact unmarshal_hello r4 id q) as [[r5 resp] err]
           end.
           simpl in Hfields. destruct Hfields as (Hcn & Htmp & _).
           destruct err as [e1|]; [|destruct resp as [hr|]; [discriminate|]];
             intros Hf;
             (match type of Hf with
              | fail_closing ?s2 ?r2 ?e2 = _ =>
                  destruct (fail_closing_started s2 r2 e2 Hcn Hrm)
                    as (ds & Heq & Hds)
              end;
              rewrite Heq in Hf; injection Hf as <- _; simpl;
              split; [reflexivity|]; clear Heq; subst ds; rewrite Htmp; simpl;
              case_decide; [congruence|];
              apply filter_ne_app_fresh; exact Hnotin).
        -- intros Hf.
           match type of Hf with
           | fail_closing ?s2 ?r2 ?e2 = _ =>
               destruct (fail_closing_started s2 r2 e2 eq_refl Hrm)
                 as (ds & Heq & Hds)
           end.
           rewrite Heq in Hf; injection Hf as <- _; simpl.
           split; [reflexivity|]. clear Heq. subst ds. simpl.
           case_decide; [congruence|].
           apply filter_ne_app_fresh; exact Hnotin.
      * intros Hf.
        match type of Hf with
        | fail_closing ?s2 ?r2 ?e2 = _ =>
            destruct (fail_closing_started s2 r2 e2 eq_refl Hrm)
              as (ds & Heq & Hds)
        end.
        rewrite Heq in Hf; injection Hf as <- _; simpl.
        split; [reflexivity|]. clear Heq. subst ds. simpl.
        case_decide; [congruence|].
        apply filter_ne_app_fresh; exact Hnotin.
    + unfold fail_closing, Close. simpl. intros [= <- _]. auto.
  - destruct (start_ok env); cbn [negb].
    + destruct (dial_loop (dial env) 1000 0) as [c|e0].
      * cbv beta iota zeta delta [nextID].
        match goal with
        | |- context [transact unmarshal_hello ?r4 ?id ?q] =>
            pose proof (transact_fields unmarshal_hello r4 id q) as Hfields;
            destruct (transact unmarshal_hello r4 id q) as [[r5 resp] err]
        end.
        simpl in Hfields. destruct Hfields as (Hcn & Htmp & _).
        destruct err as [e1|]; [|destruct resp as [hr|]; [discriminate|]];
          intros Hf;
          (match type of Hf with
           | fail_closing ?s2 ?r2 ?e2 = _ =>
               destruct (fail_closing_started s2 r2 e2 Hcn Hrm)
                 as (ds & Heq & Hds)
           end;
           rewrite Heq in Hf; injection Hf as <- _; simpl;
           split; [reflexivity|]; clear Heq; subst ds; rewrite Htmp; simpl; reflexivity).
      * intros Hf.
        match type of Hf with
        | fail_closing ?s2 ?r2 ?e2 = _ =>
            destruct (fail_closing_started s2 r2 e2 eq_refl Hrm)
              as (ds & Heq & Hds)
        end.
        rewrite Heq in Hf; injection Hf as <- _; simpl.
        split; [reflexivity|]. subst ds. reflexivity.
    + intros Hf.
      match type of Hf with
      | fail_closing ?s2 ?r2 ?e2 = _ =>
          destruct (fail_closing_started s2 r2 e2 eq_refl Hrm)
            as (ds & Heq & Hds)
      end.
      rewrite Heq in Hf; injection Hf as <- _; simpl.
      split; [reflexivity|]. subst ds. reflexivity.
Qed.

Lemma NewRunnerProcess_failure_cleans_up_witness :
  let env := mkEnv true (Some "/dev/shm/edge-impulse-cli1"%string) true
               (fun _ => DialENOENT) in
  ∃ s' e,
    NewRunnerProcess (H := demoJSON) env demo_sys None = (s', inr e)
    ∧ proc_alive s' = false ∧ dirs s' = dirs demo_sys.
Proof.
  intros env. exists (mkSys false [] false), ErrNoSocket.
  assert (Hn : NewRunnerProcess (H := demoJSON) env demo_sys None
               = (mkSys false [] false, inr ErrNoSocket))
    by (vm_compute; reflexivity).
  split; [exact Hn|].
  apply (NewRunnerProcess_failure_cleans_up (H := demoJSON) env demo_sys
           (mkSys false [] false) None ErrNoSocket).
  - reflexivity.
  - reflexivity.
  - intros d [= <-]. split; [discriminate|]. simpl. apply not_elem_of_nil.
  - exact Hn.
Defined.



(** ** Outcomes of a transaction *)

Lemma await_response_framed_result {R : Type} `{runnerResponser R}
    (unmarshal : list byte -> option R) (r : RunnerProcess) (c1 : Conn)
    (j : list byte) (cs : list (list byte)) (rest : list ReadEvent) (resp : R) :
  conn_closed c1 = false ->
  json_document j ->
  unmarshal j = Some resp ->
  concat cs = framed j ->
  Forall (fun ch => ch ≠ []) cs ->
  incoming c1 = map Data cs ++ rest ->
  await_response unmarshal r c1
  = (set_conn r (mkConn rest (outgoing c1) false), Some resp,
     if Success (runnerResponse resp) then None
     else Some (ErrClassifying (Error (runnerResponse resp)))).
Proof.
  intros Hopen Hj Hu Hcat Hne Hin.
  unfold await_response, decode. rewrite Hopen, Hin.
  destruct (readValue_framed cs SBegin [] j rest Hj Hcat Hne) as [-> | ->];
    simpl; rewrite Hu; unfold conn_read, set_incoming; simpl; rewrite ?Hopen;
    simpl; destruct (Success (runnerResponse resp)); reflexivity.
Qed.

(** X7. When the model answers with [success] false, [transact] returns the
    error that carries the model's own message, together with the decoded
    response; the response and its zero byte have been consumed like those
    of a success, the request went out whole, and the next transaction
    starts at the next response. With [success] true there is no error. *)
Theorem transact_model_error `{JSON} {R : Type} `{runnerResponser R}
    (unmarshal : list byte -> option R) (r : RunnerProcess) (c : Conn)
    (id : Z) (req : Request) (j : list byte) (cs : list (list byte))
    (rest : list ReadEvent) (resp : R) :
  conn r = Some c ->
  conn_closed c = false ->
  json_document j ->
  unmarshal j = Some resp ->
  concat cs = framed j ->
  Forall (fun ch => ch ≠ []) cs ->
  incoming c = map Data cs ++ rest ->
  transact unmarshal r id req
  = (set_conn r (mkConn rest (outgoing c ++ marshal req) false), Some resp,
     if Success (runnerResponse resp) then None
     else Some (ErrClassifying (Error (runnerResponse resp)))).
Proof.
  intros Hconn Hopen Hj Hu Hcat Hne Hin.
  unfold transact. rewrite Hconn. unfold conn_write. rewrite Hopen.
  rewrite (await_response_framed_result unmarshal r
             (mkConn (incoming c) (outgoing c ++ marshal req) false)
             j cs rest resp eq_refl Hj Hu Hcat Hne Hin).
  reflexivity.
Qed.

Lemma transact_model_error_witness :
  let next := [Data (framed demo_ok)] in
  let c := mkConn ([Data [x7b; x66; x7d]; Data [x00]] ++ next) [] false in
  let r := demo_runner SensorTypeMicrophone
             ([Data [x7b; x66; x7d]; Data [x00]] ++ next) in
  transact (H := demoJSON) demo_unmarshal_classify r 2
    (ClassifyReq (mkClassifyRequest 2 [5]))
  = (set_conn r
       (mkConn next
          (outgoing c ++ demo_marshal (ClassifyReq (mkClassifyRequest 2 [5])))
          false),
     Some (demo_response false),
     if Success (runnerResponse (demo_response false)) then None
     else Some (ErrClassifying (Error (runnerResponse (demo_response false))))).
Proof.
  intros next c r.
  apply (transact_model_error (H := demoJSON) demo_unmarshal_classify r c 2
           (ClassifyReq (mkClassifyRequest 2 [5])) demo_failed
           [[x7b; x66; x7d]; [x00]] next (demo_response false)).
  - reflexivity.
  - reflexivity.
  - reflexivity.
  - reflexivity.
  - reflexivity.
  - repeat constructor; discriminate.
  - reflexivity.
Defined.

(** The decoder on a JSON document that ends with a read: nothing is left in
    its buffer. *)
Lemma readValue_exact (cs : list (list byte)) :
  ∀ (s : ScanState) (buf j : list byte) (rest : list ReadEvent),
    scan s j = Complete (length j) ->
    concat cs = j ->
    Forall (fun ch => ch ≠ []) cs ->
    readValue s buf (map Data cs ++ rest) = (inl (buf ++ j, []), rest).
Proof.
  induction cs as [|c cs IH]; intros s buf j rest Hscan Hcat Hne.
  - simpl in Hcat. subst j. discriminate.
  - inversion Hne as [|? ? Hc Hcs]; subst.
    change (concat (c :: cs)) with (c ++ concat cs) in *. simpl.
    rewrite scan_app in Hscan.
    destruct (scan s c) as [n|s'|] eqn:Hsc; [| |discriminate].
    + injection Hscan as ->.
      pose proof (scan_complete_bounds _ _ _ Hsc) as Hb.
      rewrite length_app in Hb.
      assert (Hnil : concat cs = [])
        by (destruct (concat cs); [reflexivity|simpl in Hb; lia]).
      rewrite Hnil, app_nil_r in *.
      rewrite (concat_nonempty_nil cs Hcs Hnil).
      rewrite take_ge, drop_ge by lia. reflexivity.
    + destruct (scan s' (concat cs)) as [n| |] eqn:Hsl; try discriminate.
      injection Hscan as Hn. rewrite length_app in Hn.
      assert (n = length (concat cs)) as -> by lia.
      rewrite (IH s' (buf ++ c) (concat cs) rest Hsl eq_refl Hcs).
      rewrite <- app_assoc. reflexivity.
Qed.

(** X8. A response that is whole JSON but does not fit the response type
    makes [transact] return before the drain. When its zero byte comes in a
    read of its own, the byte stays on the connection: the [Classify] that
    follows finds it where its response should begin and fails with a syntax
    error, which takes the byte away; only the call after that is aligned
    again. *)
Theorem Classify_after_unmarshal_error `{JSON} (r : RunnerProcess) (c : Conn)
    (d1 d2 : list Z) (j : list byte) (cs : list (list byte))
    (rest : list ReadEvent) :
  conn r = Some c ->
  conn_closed c = false ->
  json_document j ->
  unmarshal_classify j = None ->
  concat cs = j ->
  Forall (fun ch => ch ≠ []) cs ->
  incoming c = map Data cs ++ Data [x00] :: rest ->
  ∃ r1 r2 c1 c2,
    Classify r d1 = (r1, None, Some (ErrReadingJSON DecUnmarshal))
    ∧ conn r1 = Some c1 ∧ incoming c1 = Data [x00] :: rest
    ∧ Classify r1 d2 = (r2, None, Some (ErrReadingJSON DecSyntax))
    ∧ conn r2 = Some c2 ∧ incoming c2 = rest.
Proof.
  intros Hconn Hopen Hj Hu Hcat Hne Hin.
  unfold Classify, transact. simpl. rewrite Hconn.
  unfold conn_write. rewrite Hopen.
  unfold await_response, decode. simpl. rewrite Hin.
  rewrite (readValue_exact cs SBegin [] j (Data [x00] :: rest) Hj Hcat Hne).
  simpl. rewrite Hu. simpl.
  eexists _, _, _, _. repeat split; reflexivity.
Qed.

Lemma Classify_after_unmarshal_error_witness :
  let r := demo_runner SensorTypeMicrophone
             ([Data [x7b; x7d]] ++ Data [x00] :: [Data (framed demo_ok)]) in
  ∃ r1 r2 c1 c2,
    Classify (H := demoJSON) r [1]
    = (r1, None, Some (ErrReadingJSON DecUnmarshal))
    ∧ conn r1 = Some c1 ∧ incoming c1 = Data [x00] :: [Data (framed demo_ok)]
    ∧ Classify (H := demoJSON) r1 [2]
      = (r2, None, Some (ErrReadingJSON DecSyntax))
    ∧ conn r2 = Some c2 ∧ incoming c2 = [Data (framed demo_ok)].
Proof.
  intros r.
  apply (Classify_after_unmarshal_error (H := demoJSON) r
           (mkConn ([Data [x7b; x7d]] ++ Data [x00] :: [Data (framed demo_ok)])
              [] false)
           [1] [2] [x7b; x7d] [[x7b; x7d]] [Data (framed demo_ok)]).
  - reflexivity.
  - reflexivity.
  - reflexivity.
  - reflexivity.
  - reflexivity.
  - repeat constructor; discriminate.
  - reflexivity.
Defined.

(** ** The audio classifier: what reaches the model *)

Lemma go_copy_same_length {A : Type} (dst src : list A) :
  length dst = length src -> go_copy dst src = src.
Proof.
  intros Hl. unfold go_copy. rewrite Hl, take_ge, drop_ge by lia.
  apply app_nil_r.
Qed.

Lemma is_window_length (stream : list byte) (isc N : nat) (s : list Z) :
  is_window stream isc N s -> length s = N.
Proof.
  intros (k & Hk & HN & ->). unfold most_recent.
  rewrite length_drop.
  rewrite (samples_of_length (isc * k)) by (rewrite length_take; lia).
  nia.
Qed.

Section AudioInvariant.
Context {RS : Type} `{Runner RS}.
Variable isc : nat.
Variable stream : list byte.
Variable N : nat.

Lemma samples_of_next_interval (k : nat) :
  (2 * isc * k + 2 * isc <= length stream)%nat ->
  samples_of (take (2 * isc * k) stream)
  ++ samples_of (take (2 * isc) (drop (2 * isc * k) stream))
  = samples_of (take (2 * isc * S k) stream).
Proof.
  intros Hlen.
  rewrite <- (samples_of_app (isc * k)) by (rewrite length_take; lia).
  rewrite take_take_drop. f_equal. f_equal. lia.
Qed.

Lemma capture_next_inv (st st' : Audio RS) :
  audio_inv stream isc N st ->
  capture_next isc st = Some st' ->
  audio_inv stream isc N st'.
Proof.
  intros (Hlen & (k & Hk & Hw & Haud) & Hcap & Hwrk & Hev & Hrcv).
  unfold capture_next.
  destruct (a_cap st) as [|ev|s| | |] eqn:Hc.
  - (* a read *)
    rewrite Haud. unfold read_full.
    destruct (decide (2 * isc <= length (drop (2 * isc * k) stream))%nat)
      as [Hfull|Hshort].
    + rewrite length_drop in Hfull.
      assert (Hbuf : length (take (2 * isc) (drop (2 * isc * k) stream))
                     = (2 * isc)%nat)
        by (rewrite length_take, length_drop; lia).
      destruct (capture_window_step isc _ _ _ _ Hbuf Hw)
        as (w' & -> & Hlen' & Hw').
      rewrite samples_of_next_interval in Hw' by lia.
      rewrite (samples_of_length (isc * k)) in * by (rewrite length_take; lia).
      assert (Hrest : drop (2 * isc) (drop (2 * isc * k) stream)
                      = drop (2 * isc * S k) stream)
        by (rewrite drop_drop; f_equal; lia).
      case_decide as Hcount; intros [= <-]; unfold audio_inv; simpl;
        rewrite ?Hc.
      * split; [congruence|]. split.
        { exists (S k). split; [lia|]. split; [exact Hw'|exact Hrest]. }
        auto.
      * rewrite go_copy_same_length by (rewrite length_replicate; reflexivity).
        assert (Hwin : is_window stream isc N w').
        { exists (S k). split; [lia|]. split; [lia|].
          destruct Hw' as [Hcnt Htake].
          assert (Hfull' : (length (a_window st) `min` (isc * k + isc))%nat = N)
            by lia.
          rewrite Hfull' in Htake. rewrite take_ge in Htake by lia.
          exact Htake. }
        split; [congruence|]. split.
        { exists (S k). split; [lia|]. split; [exact Hw'|exact Hrest]. }
        auto.
    + intros [= <-]. unfold audio_inv; simpl.
      split; [exact Hlen|]. split; [exists k; auto|].
      split; [intros Hn; discriminate|]. auto.
  - destruct (a_events st) eqn:He; [discriminate|].
    intros [= <-]. unfold audio_inv; simpl.
    split; [exact Hlen|]. split; [exists k; auto|].
    split; [exact I|]. split; [exact Hwrk|].
    split; [intros ev' [= <-]; exact Hcap|exact Hrcv].
  - destruct (a_wrk st) eqn:Hwk; intros [= <-]; unfold audio_inv; simpl;
      rewrite ?Hwk;
      (split; [exact Hlen|]); (split; [exists k; auto|]); auto.
  - intros [= <-]. unfold audio_inv; simpl.
    split; [exact Hlen|]. split; [exists k; auto|]. auto.
  - discriminate.
  - discriminate.
Qed.

Lemma worker_next_inv (st st' : Audio RS) :
  audio_inv stream isc N st ->
  worker_next st = Some st' ->
  audio_inv stream isc N st'.
Proof.
  intros (Hlen & Hk & Hcap & Hwrk & Hev & Hrcv).
  unfold worker_next.
  destruct (a_wrk st) as [|s|ev|ev|] eqn:Hwk.
  - destruct (a_samples_closed st); [|discriminate].
    intros [= <-]. unfold audio_inv; simpl. auto 10.
  - destruct (runner_Classify (a_runner st) s) as [[rs resp] [e|]];
      intros [= <-]; unfold audio_inv; simpl;
      (split; [exact Hlen|]); (split; [exact Hk|]); (split; [exact Hcap|]);
      (split; [|auto]).
    + intros Hn; discriminate.
    + intros _. exact Hwrk.
  - destruct (a_events st) eqn:He; [discriminate|].
    intros [= <-]. unfold audio_inv; simpl.
    split; [exact Hlen|]. split; [exact Hk|]. split; [exact Hcap|].
    split; [exact I|]. split; [intros ev' [= <-]; exact Hwrk|exact Hrcv].
  - destruct (a_events st) eqn:He; [discriminate|].
    intros [= <-]. unfold audio_inv; simpl.
    split; [exact Hlen|]. split; [exact Hk|]. split; [exact Hcap|].
    split; [exact I|]. split; [intros ev' [= <-]; exact Hwrk|exact Hrcv].
  - discriminate.
Qed.

Lemma consumer_next_inv (st st' : Audio RS) :
  audio_inv stream isc N st ->
  consumer_next st = Some st' ->
  audio_inv stream isc N st'.
Proof.
  intros (Hlen & Hk & Hcap & Hwrk & Hev & Hrcv).
  unfold consumer_next. destruct (a_events st) as [ev|] eqn:He; [|discriminate].
  intros [= <-]. unfold audio_inv; simpl.
  split; [exact Hlen|]. split; [exact Hk|]. split; [exact Hcap|].
  split; [exact Hwrk|]. split; [intros ev' Hn; discriminate|].
  apply Forall_app. split; [exact Hrcv|]. constructor; [|constructor].
  apply Hev. reflexivity.
Qed.

Lemma audio_run_inv (sched : list Actor) :
  ∀ st : Audio RS,
    audio_inv stream isc N st -> audio_inv stream isc N (audio_run isc sched st).
Proof.
  induction sched as [|a sched IH]; intros st Hinv; simpl; [exact Hinv|].
  destruct (audio_next isc a st) as [st'|] eqn:Hn; [|apply IH; exact Hinv].
  apply IH. destruct a; simpl in Hn.
  - eapply capture_next_inv; eassumption.
  - eapply worker_next_inv; eassumption.
  - eapply consumer_next_inv; eassumption.
Qed.

End AudioInvariant.

(** X9. In every run of the audio classifier made by [NewClassifier], the
    capture goroutine never stores outside its buffer, the buffer keeps the
    length the model asks for, and everything handed to [Classify], and so
    the samples of every result event, is a window of the stream: the most
    recent [InputFeaturesCount] samples after a whole number of intervals. *)
Theorem audio_windows_reach_model {RS : Type} `{Runner RS} (runner : RS)
    (recorder rec' : AudioRecorder) (isc : nat) (st0 : Audio RS)
    (sched : list Actor) :
  audio_NewClassifier runner recorder isc = (rec', inl st0) ->
  let n := InputFeaturesCount (runner_ModelParameters runner) in
  let st := audio_run isc sched st0 in
  a_cap st ≠ CapPanicked
  ∧ length (a_window st) = n
  ∧ (∀ s, a_wrk st = WrkClassifying s ->
          length s = n ∧ is_window (rec_stream recorder) isc n s)
  ∧ (∀ ev, ev ∈ a_received st -> ae_Err ev = None ->
           length (ae_Samples ev) = n
           ∧ is_window (rec_stream recorder) isc n (ae_Samples ev)).
Proof.
  intros Hnew n st.
  assert (Hinit : audio_inv (rec_stream recorder) isc n st0).
  { unfold audio_NewClassifier in Hnew. case_decide; [discriminate|].
    injection Hnew as _ <-. unfold audio_inv; simpl.
    split; [apply length_replicate|]. split.
    - exists 0%nat. rewrite Nat.mul_0_r. simpl.
      split; [lia|]. split; [|reflexivity].
      split; [simpl; lia|reflexivity].
    - split; [exact I|]. split; [exact I|].
      split; [intros ev Hn; discriminate|constructor]. }
  pose proof (audio_run_inv isc (rec_stream recorder) n sched st0 Hinit)
    as (Hlen & _ & Hcap & Hwrk & _ & Hrcv).
  fold st in Hlen, Hcap, Hwrk, Hrcv.
  split; [intros Hp; rewrite Hp in Hcap; exact Hcap|].
  split; [exact Hlen|]. split.
  - intros s Hs. rewrite Hs in Hwrk.
    split; [eapply is_window_length; exact Hwrk|exact Hwrk].
  - intros ev Hin Herr. rewrite Forall_forall in Hrcv.
    pose proof (Hrcv ev Hin Herr) as Hwin.
    split; [eapply is_window_length; exact Hwin|exact Hwin].
Qed.

Lemma audio_windows_reach_model_witness :
  let runner := demo_runner SensorTypeMicrophone
                  [Data (framed demo_ok); Data (framed demo_ok)] in
  let recorder := mkAudioRecorder demo_stream 0 in
  let n := 4%nat in
  let st := audio_run (H := RunnerProcess_Runner (H := demoJSON)) 2
              demo_schedule (demo_audio demo_stream
                               [Data (framed demo_ok); Data (framed demo_ok)]) in
  a_cap st ≠ CapPanicked
  ∧ length (a_window st) = n
  ∧ (∀ s, a_wrk st = WrkClassifying s ->
          length s = n ∧ is_window (rec_stream recorder) 2 n s)
  ∧ (∀ ev, ev ∈ a_received st -> ae_Err ev = None ->
           length (ae_Samples ev) = n
           ∧ is_window (rec_stream recorder) 2 n (ae_Samples ev)).
Proof.
  intros runner recorder n st.
  exact (audio_windows_reach_model (H := RunnerProcess_Runner (H := demoJSON))
           runner recorder (mkAudioRecorder demo_stream 1) 2
           (demo_audio demo_stream
              [Data (framed demo_ok); Data (framed demo_ok)])
           demo_schedule (demo_audio_NewClassifier _ _)).
Defined.


(** ** Features and the image they came from *)

Lemma to_u8_u8 (b : byte) : to_u8 (u8 b) = b.
Proof.
  unfold to_u8, u8. rewrite N2Z.id, Byte.of_to_N. reflexivity.
Qed.

Lemma shiftr_byte (b n : Z) : 0 <= b < 256 -> 8 <= n -> Z.shiftr b n = 0.
Proof.
  intros Hb Hn. rewrite Z.shiftr_div_pow2 by lia. apply Z.div_small.
  split; [lia|]. apply Z.lt_le_trans with (2 ^ 8); [lia|].
  apply Z.pow_le_mono_r; lia.
Qed.

Lemma land_byte (b : Z) : 0 <= b < 256 -> Z.land b 255 = b.
Proof.
  intros Hb. change 255 with (Z.ones 8). rewrite Z.land_ones by lia.
  apply Z.mod_small. lia.
Qed.

Lemma land_shiftl_byte (a n : Z) : 8 <= n -> Z.land (Z.shiftl a n) 255 = 0.
Proof.
  intros Hn. change 255 with (Z.ones 8). rewrite Z.land_ones by lia.
  rewrite Z.shiftl_mul_pow2 by lia.
  replace n with ((n - 8) + 8) by lia. rewrite Z.pow_add_r by lia.
  rewrite Z.mul_assoc. apply Z_mod_mult.
Qed.

(** The three channels come back out of a 24-bit RGB integer. *)
Lemma unpack_rgb24 (r g b : byte) :
  unpack_pixel (rgb24 (u8 r) (u8 g) (u8 b)) = mkNRGBA r g b xff.
Proof.
  pose proof (u8_range r) as Hr. pose proof (u8_range g) as Hg.
  pose proof (u8_range b) as Hb.
  unfold unpack_pixel, rgb24.
  rewrite !Z.shiftr_lor, !Z.land_lor_distr_l.
  rewrite !Z.shiftr_0_r.
  rewrite (Z.shiftr_shiftl_l (u8 r) 16 16), (Z.shiftr_shiftl_l (u8 r) 16 8)
    by lia.
  rewrite (Z.shiftr_shiftl_r (u8 g) 8 16), (Z.shiftr_shiftl_l (u8 g) 8 8)
    by lia.
  simpl (16 - 16). simpl (16 - 8). simpl (8 - 8).
  rewrite !Z.shiftl_0_r.
  rewrite !(shiftr_byte (u8 g)), !(shiftr_byte (u8 b)) by lia.
  rewrite !land_shiftl_byte by lia.
  rewrite !Z.land_0_l, !Z.lor_0_r, !Z.lor_0_l.
  rewrite !land_byte by lia.
  rewrite !to_u8_u8. reflexivity.
Qed.

Lemma image_features_length (width height : nat) (img : Image) :
  length (image_features width height img) = (width * height)%nat.
Proof.
  unfold image_features. generalize 0%nat at 2.
  induction height as [|height IH]; intros y0; simpl; [lia|].
  rewrite length_app, length_map, length_seq, IH. lia.
Qed.

(** The features of a whole NRGBA image are its pixels, packed, in the order
    of [Pix]. *)
Lemma image_features_pixels (i : NRGBAImage) :
  length (n_pix i) = (n_width i * n_height i)%nat ->
  image_features (n_width i) (n_height i) (ImageNRGBA i)
  = map (fun c => pack_pixel (NRGBA_RGBA c)) (n_pix i).
Proof.
  intros Hlen. apply list_eq. intros k.
  destruct (decide (k < n_width i * n_height i)%nat) as [Hk|Hk].
  - assert (Hw : (0 < n_width i)%nat) by nia.
    pose proof (Nat.div_mod_eq k (n_width i)) as Hdm.
    pose proof (Nat.mod_upper_bound k (n_width i) ltac:(lia)) as Hx.
    assert (Hy : (k / n_width i < n_height i)%nat)
      by (apply Nat.Div0.div_lt_upper_bound; lia).
    replace k with (k / n_width i * n_width i + k mod n_width i)%nat at 1 by lia.
    rewrite image_features_lookup by assumption.
    rewrite list_lookup_fmap. simpl.
    case_decide as Hin; [|lia].
    replace (k / n_width i * n_width i + k mod n_width i)%nat with k by lia.
    destruct (n_pix i !! k) as [c|] eqn:Hc; [reflexivity|].
    apply lookup_ge_None in Hc. lia.
  - rewrite !lookup_ge_None_2;
      rewrite ?image_features_length, ?length_map; try lia. reflexivity.
Qed.

(** X11. [eimimagereq] undoes the packing of the image classifier: from the
    features of an opaque square NRGBA image of the size it expects it
    rebuilds that image, pixel for pixel; any other number of values is
    refused. ([eimimagereq] is the case of 96.) *)
Theorem eimimagereq_round_trip (side : nat) (i : NRGBAImage) :
  n_width i = side ->
  n_height i = side ->
  length (n_pix i) = (side * side)%nat ->
  Forall (fun c => cA c = xff) (n_pix i) ->
  eimimagereq_sized side (image_features side side (ImageNRGBA i)) = Some i
  ∧ ∀ data, length data ≠ (side * side)%nat ->
            eimimagereq_sized side data = None.
Proof.
  intros Hw Hh Hlen Hop. split.
  - unfold eimimagereq_sized.
    rewrite image_features_length. case_decide; [congruence|].
    destruct i as [w h pix]. simpl in *. subst w h.
    pose proof (image_features_pixels (mkNRGBAImage side side pix) Hlen) as Hp.
    cbn [n_width n_height n_pix] in Hp. rewrite Hp.
    f_equal. f_equal. rewrite map_map.
    clear Hlen Hp H. induction Hop as [|c pix Hc Hop IH]; [reflexivity|].
    cbn [map]. rewrite IH. f_equal.
    rewrite pack_opaque by exact Hc. rewrite unpack_rgb24.
    destruct c as [r g b a]. simpl in Hc. subst a. reflexivity.
  - intros data Hd. unfold eimimagereq_sized. case_decide; [reflexivity|].
    contradiction.
Qed.

Lemma eimimagereq_round_trip_witness :
  let i := mkNRGBAImage 96 96 (replicate (96 * 96) (mkNRGBA x10 x80 xfe xff)) in
  eimimagereq (image_features 96 96 (ImageNRGBA i)) = Some i
  ∧ ∀ data, length data ≠ (96 * 96)%nat -> eimimagereq data = None.
Proof.
  intros i.
  apply (eimimagereq_round_trip 96 i).
  - reflexivity.
  - reflexivity.
  - apply length_replicate.
  - apply Forall_replicate. reflexivity.
Defined.

(** ** The loop of the image classifier *)





Lemma image_loop_app {RS : Type} `{Runner RS} `{Imaging}
    (mp : ModelParameters) (pre post : list Received) :
  ∀ st : ImageLoop RS,
    Forall is_event pre ->
    il_running st = true ->
    il_running (image_loop mp st pre) = true
    ∧ image_loop mp st (pre ++ post)
      = image_loop mp (image_loop mp st pre) post.
Proof.
  induction pre as [|rcv pre IH]; intros st Hev Hrun.
  - simpl. auto.
  - inversion Hev as [|? ? Hrcv Hpre]; subst.
    cbn [image_loop app]. rewrite Hrun.
    apply IH; [exact Hpre|].
    destruct rcv as [| |iev]; try contradiction.
    unfold image_turn. destruct (iev_Err iev); [reflexivity|].
    destruct (runner_Classify _ _) as [[rs resp] [e|]]; reflexivity.
Qed.

(** X13. Once the loop of the image classifier has received the stop signal
    of [Close], or found the channel of the recorder closed, it is over:
    whatever image events come after are not classified, the runner is not
    called for them and no event is sent. *)
Theorem image_loop_stops {RS : Type} `{Runner RS} `{Imaging}
    (mp : ModelParameters) (st : ImageLoop RS) (pre post : list Received)
    (stop : Received) :
  Forall is_event pre ->
  ¬ is_event stop ->
  il_running st = true ->
  let st1 := image_loop mp st pre in
  image_loop mp st (pre ++ stop :: post)
  = mkImageLoop (il_runner st1) (il_seq st1) false (il_events st1).
Proof.
  intros Hpre Hstop Hrun st1.
  destruct (image_loop_app mp pre (stop :: post) st Hpre Hrun) as [Hrun1 ->].
  fold st1 in Hrun1 |- *. cbn [image_loop]. rewrite Hrun1.
  destruct stop as [| |iev]; [| |exfalso; apply Hstop; exact I];
    simpl; destruct post; reflexivity.
Qed.

Lemma image_loop_stops_witness :
  let runner := demo_runner SensorTypeCamera
                  [Data (framed demo_ok); Data (framed demo_ok)] in
  let ev := REvent (mkImageEvent None demo_gray_image) in
  let st := mkImageLoop runner 2 true [] in
  let st1 := image_loop (H := RunnerProcess_Runner (H := demoJSON))
               (H0 := demoImaging) demo_gray_params st [ev] in
  image_loop (H := RunnerProcess_Runner (H := demoJSON)) (H0 := demoImaging)
    demo_gray_params st ([ev] ++ RStop :: [ev; ev])
  = mkImageLoop (il_runner st1) (il_seq st1) false (il_events st1).
Proof.
  intros runner ev st.
  apply (image_loop_stops (H := RunnerProcess_Runner (H := demoJSON))
           (H0 := demoImaging) demo_gray_params st [ev] [ev; ev] RStop).
  - repeat constructor.
  - intros Hn. exact Hn.
  - reflexivity.
Defined.

(** ** The moving average filter *)

Section MAFProperties.
Context {F : Type} `{Floats F}.

Lemma label_step_wf (size : nat) (ls : labelState F) (v : F) :
  length (ls_values ls) = size ->
  (ls_index ls < size)%nat ->
  ∃ ls' avg,
    label_step ls v = Some (ls', avg)
    ∧ ls_values ls' = <[ls_index ls := v]> (ls_values ls)
    ∧ length (ls_values ls') = size
    ∧ (ls_index ls' < size)%nat
    ∧ ls_index ls' = (if decide (size <= S (ls_index ls))%nat then 0
                      else S (ls_index ls))%nat.
Proof.
  intros Hlen Hidx. unfold label_step.
  destruct (ls_values ls !! ls_index ls) as [old|] eqn:Hold.
  - eexists _, _. split; [reflexivity|]. simpl.
    rewrite length_insert, Hlen.
    split; [reflexivity|]. split; [reflexivity|].
    split; [case_decide; lia|reflexivity].
  - apply lookup_ge_None in Hold. lia.
Qed.

Lemma update_loop_wf (size : nat) (cl : list (string * F)) :
  ∀ (state : gmap string (labelState F)) (r : gmap string F),
    maf_wf size state ->
    maf_wf size (update_loop state r cl).1
    ∧ (update_loop state r cl).2 ≠ inr MAFPanic
    ∧ (update_loop state r cl).2 ≠ inr MAFInvalid
    ∧ ∀ l, is_Some ((update_loop state r cl).1 !! l) ↔ is_Some (state !! l).
Proof.
  induction cl as [|[label value] cl IH]; intros state r Hwf; simpl.
  - split; [exact Hwf|]. split; [discriminate|]. split; [discriminate|].
    reflexivity.
  - destruct (state !! label) as [ls|] eqn:Hl.
    + destruct (Hwf label ls Hl) as [Hlen Hidx].
      destruct (label_step_wf size ls value Hlen Hidx)
        as (ls' & avg & -> & _ & Hlen' & Hidx' & _).
      assert (Hwf' : maf_wf size (<[label := ls']> state)).
      { intros l x Hx. destruct (decide (label = l)) as [->|Hne].
        - rewrite lookup_insert_eq in Hx. injection Hx as <-. auto.
        - rewrite lookup_insert_ne in Hx by exact Hne. exact (Hwf l x Hx). }
      destruct (IH (<[label := ls']> state) (<[label := avg]> r) Hwf')
        as (Hw & Hp & Hi & Hd).
      split; [exact Hw|]. split; [exact Hp|]. split; [exact Hi|].
      intros l. rewrite Hd. destruct (decide (label = l)) as [->|Hne].
      * rewrite lookup_insert_eq, Hl. split; eauto.
      * rewrite lookup_insert_ne by exact Hne. reflexivity.
    + simpl. split; [exact Hwf|]. split; [discriminate|].
      split; [discriminate|reflexivity].
Qed.

Lemma NewMAF_state (size : Z) (labels : list string) (m : MAF F) :
  NewMAF size labels = inl m ->
  0 < size
  ∧ ∃ state, m = Some state
             ∧ maf_wf (Z.to_nat size) state
             ∧ (∀ l, is_Some (state !! l) ↔ l ∈ labels)
             ∧ ∀ l ls, state !! l = Some ls ->
                       ls = mkLabelState 0 f_zero
                              (replicate (Z.to_nat size) f_zero).
Proof.
  unfold NewMAF. repeat case_decide; try discriminate.
  intros [= <-]. split; [lia|]. eexists. split; [reflexivity|].
  set (ls0 := mkLabelState 0 f_zero (replicate (Z.to_nat size) f_zero)).
  assert (Hfold : ∀ (ls : list string) (st : gmap string (labelState F)) l,
             foldl (fun st label => <[label := ls0]> st) st ls !! l
             = if decide (l ∈ ls) then Some ls0 else st !! l).
  { induction ls as [|a ls IHl]; intros st l; cbn [foldl].
    - rewrite decide_False by apply not_elem_of_nil. reflexivity.
    - rewrite IHl. destruct (decide (l ∈ ls)) as [Hin|Hnin].
      + rewrite decide_True by (right; exact Hin). reflexivity.
      + destruct (decide (a = l)) as [->|Hne].
        * rewrite lookup_insert_eq, decide_True by left. reflexivity.
        * rewrite lookup_insert_ne by exact Hne.
          rewrite decide_False; [reflexivity|].
          intros Hin. apply elem_of_cons in Hin as [->|Hin]; auto. }
  split; [|split].
  - intros l ls. rewrite Hfold. case_decide; [|rewrite lookup_empty; discriminate].
    intros [= <-]. simpl. rewrite length_replicate. lia.
  - intros l. rewrite Hfold. case_decide.
    + split; eauto.
    + rewrite lookup_empty. split; [intros [? ?]; discriminate|contradiction].
  - intros l ls. rewrite Hfold. case_decide; [|rewrite lookup_empty; discriminate].
    intros [= <-]. reflexivity.
Qed.

Lemma maf_run_wf (size : nat) (cls : list (list (string * F))) :
  ∀ state : gmap string (labelState F),
    maf_wf size state ->
    ∃ state',
      (maf_run (Some state) cls).1 = Some state'
      ∧ maf_wf size state'
      ∧ (∀ l, is_Some (state' !! l) ↔ is_Some (state !! l))
      ∧ Forall (fun res => res ≠ inr MAFPanic ∧ res ≠ inr MAFInvalid)
          (maf_run (Some state) cls).2
      ∧ length (maf_run (Some state) cls).2 = length cls.
Proof.
  induction cls as [|cl cls IH]; intros state Hwf.
  - exists state. simpl. auto using Forall_nil.
  - cbn [maf_run]. unfold Update.
    destruct (decide (length cl = 0%nat)) as [Hz|Hnz].
    + destruct (IH state Hwf) as (state' & Hm & Hw & Hd & Hres & Hlen).
      destruct (maf_run (Some state) cls) as [m2 ress]. simpl in *.
      exists state'. split; [exact Hm|]. split; [exact Hw|].
      split; [exact Hd|]. split; [|lia].
      constructor; [split; discriminate|exact Hres].
    + destruct (update_loop_wf size cl state ∅ Hwf) as (Hw1 & Hp1 & Hi1 & Hd1).
      destruct (update_loop state ∅ cl) as [state1 res]. simpl in *.
      destruct (IH state1 Hw1) as (state' & Hm & Hw & Hd & Hres & Hlen).
      destruct (maf_run (Some state1) cls) as [m2 ress]. simpl in *.
      exists state'. split; [exact Hm|]. split; [exact Hw|].
      split; [intros l; rewrite Hd; apply Hd1|].
      split; [|lia].
      constructor; [|exact Hres]. split; [exact Hp1|exact Hi1].
Qed.

(** X14. A filter made by [NewMAF] stays sound under any updates, failed
    ones included: it keeps exactly the labels it was made with, every
    history keeps its [size] places with the index inside them, so that no
    update ever indexes out of range, and no update finds the filter
    invalid. *)
Theorem maf_stays_sound (size : Z) (labels : list string) (m : MAF F)
    (cls : list (list (string * F))) :
  NewMAF size labels = inl m ->
  ∃ state',
    (maf_run m cls).1 = Some state'
    ∧ maf_wf (Z.to_nat size) state'
    ∧ (∀ l, is_Some (state' !! l) ↔ l ∈ labels)
    ∧ Forall (fun res => res ≠ inr MAFPanic ∧ res ≠ inr MAFInvalid)
        (maf_run m cls).2
    ∧ length (maf_run m cls).2 = length cls.
Proof.
  intros Hnew.
  destruct (NewMAF_state size labels m Hnew)
    as (_ & state & -> & Hwf & Hdom & _).
  destruct (maf_run_wf (Z.to_nat size) cls state Hwf)
    as (state' & Hm & Hw & Hd & Hres & Hlen).
  exists state'. split; [exact Hm|]. split; [exact Hw|].
  split; [intros l; rewrite Hd; apply Hdom|]. auto.
Qed.

End MAFProperties.

Lemma maf_stays_sound_witness :
  ∃ m,
    NewMAF (H := demoFloats) 3 ["a"; "b"]%string = inl m
    ∧ ∃ state',
        (maf_run (H := demoFloats) m
           [[("a", 1); ("b", 2)]; []; [("b", 5); ("c", 1)]]%string).1
        = Some state'
        ∧ maf_wf (Z.to_nat 3) state'
        ∧ (∀ l, is_Some (state' !! l) ↔ l ∈ ["a"; "b"]%string)
        ∧ Forall (fun res => res ≠ inr MAFPanic ∧ res ≠ inr MAFInvalid)
            (maf_run (H := demoFloats) m
               [[("a", 1); ("b", 2)]; []; [("b", 5); ("c", 1)]]%string).2
        ∧ length
            (maf_run (H := demoFloats) m
               [[("a", 1); ("b", 2)]; []; [("b", 5); ("c", 1)]]%string).2
          = length [[("a", 1); ("b", 2)]; []; [("b", 5); ("c", 1)]]%string.
Proof.
  eexists. split; [reflexivity|].
  apply (maf_stays_sound (H := demoFloats) 3 ["a"; "b"]%string).
  reflexivity.
Defined.

Section MAFUpdate.
Context {F : Type} `{Floats F}.

(** What an update does to the histories and what it returns, label by
    label, when every label is known: the order of the iteration is not in
    it. *)
Lemma update_loop_known (size : nat) (cl : list (string * F)) :
  ∀ (state : gmap string (labelState F)) (r : gmap string F),
    maf_wf size state ->
    NoDup cl.*1 ->
    (∀ l, l ∈ cl.*1 -> is_Some (state !! l)) ->
    ∃ state' r',
      update_loop state r cl = (state', inl r')
      ∧ (∀ l, state' !! l
              = match (list_to_map cl : gmap string F) !! l with
                | Some v => state !! l ≫= (fun ls => fst <$> label_step ls v)
                | None => state !! l
                end)
      ∧ (∀ l, r' !! l
              = match (list_to_map cl : gmap string F) !! l with
                | Some v => state !! l ≫= (fun ls => snd <$> label_step ls v)
                | None => r !! l
                end).
Proof.
  induction cl as [|[l0 v0] cl IH]; intros state r Hwf Hnd Hknown.
  - exists state, r. simpl. split; [reflexivity|].
    split; intros l; rewrite lookup_empty; reflexivity.
  - cbn [fmap list_fmap fst] in Hnd, Hknown.
    apply NoDup_cons in Hnd as [Hl0 Hnd].
    destruct (Hknown l0 ltac:(left)) as [ls Hls].
    destruct (Hwf l0 ls Hls) as [Hlen Hidx].
    destruct (label_step_wf size ls v0 Hlen Hidx)
      as (ls' & avg & Hstep & _ & Hlen' & Hidx' & _).
    cbn [update_loop]. rewrite Hls, Hstep.
    assert (Hwf' : maf_wf size (<[l0 := ls']> state)).
    { intros l x Hx. destruct (decide (l0 = l)) as [->|Hne].
      - rewrite lookup_insert_eq in Hx. injection Hx as <-. auto.
      - rewrite lookup_insert_ne in Hx by exact Hne. exact (Hwf l x Hx). }
    assert (Hknown' : ∀ l, l ∈ cl.*1 -> is_Some (<[l0 := ls']> state !! l)).
    { intros l Hl. destruct (decide (l0 = l)) as [->|Hne].
      - rewrite lookup_insert_eq. eauto.
      - rewrite lookup_insert_ne by exact Hne. apply Hknown. right. exact Hl. }
    destruct (IH (<[l0 := ls']> state) (<[l0 := avg]> r) Hwf' Hnd Hknown')
      as (state' & r' & -> & Hst & Hr).
    exists state', r'. split; [reflexivity|].
    pose proof (not_elem_of_list_to_map_1 (M := gmap string) cl l0 Hl0) as Hnone.
    split; intros l; rewrite list_to_map_cons;
      destruct (decide (l0 = l)) as [<-|Hne].
    + rewrite lookup_insert_eq, Hst, Hnone, lookup_insert_eq, Hls. simpl.
      rewrite Hstep. reflexivity.
    + rewrite lookup_insert_ne by exact Hne. rewrite Hst.
      rewrite lookup_insert_ne by exact Hne. reflexivity.
    + rewrite lookup_insert_eq, Hr, Hnone, lookup_insert_eq, Hls. simpl.
      rewrite Hstep. reflexivity.
    + rewrite lookup_insert_ne by exact Hne. rewrite Hr.
      rewrite !lookup_insert_ne by exact Hne. reflexivity.
Qed.

(** X15. An update whose labels are all known succeeds, returns a value for
    exactly the labels of the classification, and neither its result nor the
    state it leaves depends on the order in which the map of the
    classification is visited. *)
Theorem Update_order_independent (size : nat)
    (state : gmap string (labelState F)) (cl1 cl2 : list (string * F)) :
  maf_wf size state ->
  NoDup cl1.*1 ->
  cl1 ≡ₚ cl2 ->
  cl1 ≠ [] ->
  (∀ l, l ∈ cl1.*1 -> is_Some (state !! l)) ->
  Update (Some state) cl1 = Update (Some state) cl2
  ∧ ∃ state' r,
      Update (Some state) cl1 = (Some state', inl r)
      ∧ ∀ l, is_Some (r !! l) ↔ l ∈ cl1.*1.
Proof.
  intros Hwf Hnd Hperm Hne Hknown.
  assert (Hnd2 : NoDup cl2.*1) by (rewrite <- Hperm; exact Hnd).
  assert (Hknown2 : ∀ l, l ∈ cl2.*1 -> is_Some (state !! l))
    by (intros l Hl; apply Hknown; rewrite Hperm; exact Hl).
  assert (Hne2 : cl2 ≠ [])
    by (intros ->; apply Permutation_nil_r in Hperm; contradiction).
  destruct (update_loop_known size cl1 state ∅ Hwf Hnd Hknown)
    as (s1 & r1 & Hu1 & Hs1 & Hr1).
  destruct (update_loop_known size cl2 state ∅ Hwf Hnd2 Hknown2)
    as (s2 & r2 & Hu2 & Hs2 & Hr2).
  rewrite <- (list_to_map_proper cl1 cl2 Hnd Hperm) in Hs2, Hr2.
  assert (Hs : s1 = s2) by (apply map_eq; intros l; rewrite Hs1, Hs2; reflexivity).
  assert (Hr : r1 = r2) by (apply map_eq; intros l; rewrite Hr1, Hr2; reflexivity).
  unfold Update.
  rewrite !decide_False
    by (intros Hz; apply length_zero_iff_nil in Hz; contradiction).
  rewrite Hu1, Hu2, Hs, Hr. split; [reflexivity|].
  exists s2, r2. split; [reflexivity|].
  intros l. rewrite <- Hr, Hr1.
  destruct ((list_to_map cl1 : gmap string F) !! l) as [v|] eqn:Hl.
  - assert (Hin : l ∈ cl1.*1).
    { destruct (decide (l ∈ cl1.*1)) as [Hin|Hnin]; [exact Hin|].
      apply (not_elem_of_list_to_map_1 (M := gmap string)) in Hnin.
      congruence. }
    split; [intros _; exact Hin|intros _].
    destruct (Hknown l Hin) as [ls Hls]. rewrite Hls. simpl.
    destruct (Hwf l ls Hls) as [Hlen Hidx].
    destruct (label_step_wf size ls v Hlen Hidx) as (ls' & avg & -> & _).
    simpl. eauto.
  - rewrite lookup_empty.
    apply (not_elem_of_list_to_map_2 (M := gmap string)) in Hl.
    split; [intros [? ?]; discriminate|contradiction].
Qed.

(** X16. An update is not atomic. When the iteration comes to a label the
    filter does not know, the update fails with that label, and the
    histories of the labels visited before it have already taken their new
    value: the state that is left is the state after an update with those
    labels only. *)
Theorem Update_unknown_label (size : nat)
    (state : gmap string (labelState F)) (pre post : list (string * F))
    (l : string) (v : F) :
  maf_wf size state ->
  NoDup (l :: pre.*1) ->
  (∀ x, x ∈ pre.*1 -> is_Some (state !! x)) ->
  state !! l = None ->
  ∃ state1,
    Update (Some state) (pre ++ (l, v) :: post)
    = (Some state1, inr (MAFUnknownLabel l))
    ∧ state1 = (update_loop state ∅ pre).1
    ∧ ∀ x, state1 !! x
           = match (list_to_map pre : gmap string F) !! x with
             | Some vx => state !! x ≫= (fun ls => fst <$> label_step ls vx)
             | None => state !! x
             end.
Proof.
  intros Hwf Hnd Hknown Hl.
  apply NoDup_cons in Hnd as [Hlpre Hnd].
  assert (Happ : ∀ (pre : list (string * F)) st r,
             maf_wf size st -> NoDup pre.*1 ->
             (∀ x, x ∈ pre.*1 -> is_Some (st !! x)) ->
             update_loop st r (pre ++ (l, v) :: post)
             = update_loop (update_loop st r pre).1
                 (match (update_loop st r pre).2 with
                  | inl r' => r' | inr _ => r end)
                 ((l, v) :: post)).
  { clear. intros pre. induction pre as [|[l0 v0] pre IH];
      intros st r Hwf Hnd Hknown; [reflexivity|].
    cbn [fmap list_fmap fst] in Hnd, Hknown.
    apply NoDup_cons in Hnd as [Hl0 Hnd].
    destruct (Hknown l0 ltac:(left)) as [ls Hls].
    destruct (Hwf l0 ls Hls) as [Hlen Hidx].
    destruct (label_step_wf size ls v0 Hlen Hidx)
      as (ls' & avg & Hstep & _ & Hlen' & Hidx' & _).
    cbn [update_loop app]. rewrite Hls, Hstep.
    assert (Hwf' : maf_wf size (<[l0 := ls']> st)).
    { intros x y Hx. destruct (decide (l0 = x)) as [->|Hne].
      - rewrite lookup_insert_eq in Hx. injection Hx as <-. auto.
      - rewrite lookup_insert_ne in Hx by exact Hne. exact (Hwf x y Hx). }
    assert (Hknown' : ∀ x, x ∈ pre.*1 -> is_Some (<[l0 := ls']> st !! x)).
    { intros x Hx. destruct (decide (l0 = x)) as [->|Hne].
      - rewrite lookup_insert_eq. eauto.
      - rewrite lookup_insert_ne by exact Hne. apply Hknown. right. exact Hx. }
    destruct (update_loop_known size pre (<[l0 := ls']> st) (<[l0 := avg]> r)
                Hwf' Hnd Hknown') as (s' & r' & Hu & _).
    rewrite (IH _ _ Hwf' Hnd Hknown'). rewrite Hu. reflexivity. }
  destruct (update_loop_known size pre state ∅ Hwf Hnd Hknown)
    as (state1 & r1 & Hu & Hs1 & _).
  exists state1. unfold Update.
  rewrite decide_False by (rewrite length_app; simpl; lia).
  rewrite (Happ pre state ∅ Hwf Hnd Hknown), Hu. simpl.
  assert (Hl1 : state1 !! l = None).
  { rewrite Hs1.
    rewrite (not_elem_of_list_to_map_1 (M := gmap string) pre l Hlpre).
    exact Hl. }
  rewrite Hl1. split; [reflexivity|]. split; [reflexivity|exact Hs1].
Qed.

End MAFUpdate.

Lemma mod_succ_wrap (size n : nat) :
  (0 < size)%nat ->
  (S n mod size
   = if decide (size <= S (n mod size))%nat then 0 else S (n mod size))%nat.
Proof.
  intros Hs.
  pose proof (Nat.mod_upper_bound n size ltac:(lia)) as Hr.
  pose proof (Nat.div_mod_eq n size) as Hn.
  replace (S n) with (S (n mod size) + (n / size) * size)%nat by lia.
  rewrite Nat.Div0.mod_add.
  case_decide.
  - replace (S (n mod size)) with size by lia. apply Nat.Div0.mod_same.
  - apply Nat.mod_small. lia.
Qed.

Lemma mod_shift_ne (size n j : nat) :
  (0 < j < size)%nat -> ((n + j) mod size ≠ n mod size)%nat.
Proof.
  intros Hj.
  pose proof (Nat.mod_upper_bound n size ltac:(lia)) as Hr.
  rewrite <- Nat.Div0.add_mod_idemp_l.
  destruct (decide (n mod size + j < size)%nat) as [Hlt|Hge].
  - rewrite Nat.mod_small by exact Hlt. lia.
  - replace (n mod size + j)%nat
      with ((n mod size + j - size) + 1 * size)%nat by lia.
    rewrite Nat.Div0.mod_add, Nat.mod_small by lia. lia.
Qed.

Section MAFHistory.
Context {F : Type} `{Floats F}.

Lemma label_step_ring (size : nat) (done : list F) (ls : labelState F) (v : F) :
  (0 < size)%nat ->
  ring_of size done ls ->
  ∃ ls' avg, label_step ls v = Some (ls', avg) ∧ ring_of size (done ++ [v]) ls'.
Proof.
  intros Hs (Hlen & Hidx & Hring).
  pose proof (Nat.mod_upper_bound (length done) size ltac:(lia)) as Hr.
  destruct (label_step_wf size ls v Hlen ltac:(lia))
    as (ls' & avg & Hstep & Hvals & Hlen' & _ & Hidx').
  exists ls', avg. split; [exact Hstep|].
  split; [exact Hlen'|]. rewrite length_app. cbn [length].
  replace (length done + 1)%nat with (S (length done)) by lia.
  split.
  - rewrite Hidx', Hidx. symmetry. apply mod_succ_wrap. exact Hs.
  - intros k Hk. rewrite Hvals, Hidx.
    destruct (decide (S k = size)) as [Hlast|Hnot].
    + replace (S (length done) + k)%nat with (length done + 1 * size)%nat by lia.
      rewrite Nat.Div0.mod_add.
      rewrite list_lookup_insert_eq by lia.
      rewrite app_assoc, lookup_app_r
        by (rewrite length_app, length_replicate; lia).
      rewrite length_app, length_replicate.
      replace (length done + 1 * size - (size + length done))%nat with 0%nat
        by lia.
      reflexivity.
    + replace (S (length done) + k)%nat with (length done + S k)%nat by lia.
      rewrite list_lookup_insert_ne
        by (intros Heq; apply (mod_shift_ne size (length done) (S k));
            [lia|symmetry; exact Heq]).
      rewrite (Hring (S k)) by lia.
      rewrite app_assoc. symmetry. apply lookup_app_l.
      rewrite length_app, length_replicate. lia.
Qed.

Lemma label_feed_ring (size : nat) (vs : list F) :
  (0 < size)%nat ->
  ∀ (done : list F) (ls : labelState F),
    ring_of size done ls ->
    ∃ ls', label_feed ls vs = Some ls' ∧ ring_of size (done ++ vs) ls'.
Proof.
  intros Hs. induction vs as [|v vs IH]; intros done ls Hring.
  - exists ls. rewrite app_nil_r. split; [reflexivity|exact Hring].
  - destruct (label_step_ring size done ls v Hs Hring)
      as (ls1 & avg & Hstep & Hring1).
    destruct (IH _ _ Hring1) as (ls' & Hfeed & Hring').
    exists ls'. cbn [label_feed]. rewrite Hstep.
    rewrite <- app_assoc in Hring'. split; [exact Hfeed|exact Hring'].
Qed.

(** X17. The history of a label is a ring of the last [size] values. After
    the values [vs] have gone into a history made by [NewMAF], no index has
    left the slice, the index is [length vs mod size], and the place [k]
    steps after the index holds the value [k] steps after the oldest of the
    last [size] values, the values before the first update being zero. *)
Theorem label_feed_keeps_last_values (size : nat) (vs : list F) :
  (0 < size)%nat ->
  ∃ ls',
    label_feed (mkLabelState 0 f_zero (replicate size f_zero)) vs = Some ls'
    ∧ length (ls_values ls') = size
    ∧ ls_index ls' = (length vs mod size)%nat
    ∧ ∀ k, (k < size)%nat ->
           ls_values ls' !! ((length vs + k) mod size)%nat
           = (replicate size f_zero ++ vs) !! (length vs + k)%nat.
Proof.
  intros Hs.
  destruct (label_feed_ring size vs Hs []
              (mkLabelState 0 f_zero (replicate size f_zero)))
    as (ls' & Hfeed & Hring).
  - split; [apply length_replicate|]. cbn [ls_index ls_values length].
    split; [symmetry; apply Nat.Div0.mod_0_l|].
    intros k Hk. rewrite app_nil_r. cbn [Nat.add].
    rewrite Nat.mod_small by exact Hk. reflexivity.
  - exists ls'. split; [exact Hfeed|]. exact Hring.
Qed.

End MAFHistory.

Lemma label_feed_keeps_last_values_witness :
  (0 < 3)%nat
  ∧ ∃ ls',
      label_feed (H := demoFloats)
        (mkLabelState 0 0 (replicate 3 0)) [10; 20; 30; 40; 50] = Some ls'
      ∧ length (ls_values ls') = 3%nat
      ∧ ls_index ls' = (length [10; 20; 30; 40; 50] mod 3)%nat
      ∧ ∀ k, (k < 3)%nat ->
             ls_values ls' !! ((length [10; 20; 30; 40; 50] + k) mod 3)%nat
             = (replicate 3 0 ++ [10; 20; 30; 40; 50])
                 !! (length [10; 20; 30; 40; 50] + k)%nat.
Proof.
  split; [lia|].
  apply (label_feed_keeps_last_values (H := demoFloats) 3 [10; 20; 30; 40; 50]).
  lia.
Defined.

Lemma demo_maf_state_wf : maf_wf 3 demo_maf_state.
Proof.
  intros l ls. unfold demo_maf_state.
  destruct (decide (l = "a"%string)) as [->|Ha].
  - rewrite lookup_insert_eq. intros [= <-]. simpl. lia.
  - rewrite lookup_insert_ne by congruence.
    destruct (decide (l = "b"%string)) as [->|Hb].
    + rewrite lookup_insert_eq. intros [= <-]. simpl. lia.
    + rewrite lookup_insert_ne by congruence. rewrite lookup_empty.
      discriminate.
Qed.

Lemma Update_order_independent_witness :
  Update (H := demoFloats) (Some demo_maf_state) [("a", 9); ("b", 3)]%string
  = Update (H := demoFloats) (Some demo_maf_state) [("b", 3); ("a", 9)]%string
  ∧ ∃ state' r,
      Update (H := demoFloats) (Some demo_maf_state)
        [("a", 9); ("b", 3)]%string
      = (Some state', inl r)
      ∧ ∀ l, is_Some (r !! l) ↔ l ∈ [("a", 9); ("b", 3)]%string.*1.
Proof.
  apply (Update_order_independent (H := demoFloats) 3 demo_maf_state).
  - exact demo_maf_state_wf.
  - cbn [fmap list_fmap fst]. apply (bool_decide_unpack _). vm_compute. exact I.
  - apply Permutation_swap.
  - discriminate.
  - cbn [fmap list_fmap fst]. intros l Hl.
    apply elem_of_cons in Hl as [->|Hl]; [vm_compute; eauto|].
    apply list_elem_of_singleton in Hl as ->. vm_compute. eauto.
Defined.

Lemma Update_unknown_label_witness :
  ∃ state1,
    Update (H := demoFloats) (Some demo_maf_state)
      ([("a"%string, 9)] ++ ("c"%string, 1) :: [("b"%string, 3)])
    = (Some state1, inr (MAFUnknownLabel "c"%string))
    ∧ state1 = (update_loop (H := demoFloats) demo_maf_state ∅
                  [("a", 9)]%string).1
    ∧ ∀ x, state1 !! x
           = match (list_to_map [("a", 9)]%string : gmap string Z) !! x with
             | Some vx =>
                 demo_maf_state !! x
                   ≫= (fun ls => fst <$> label_step (H := demoFloats) ls vx)
             | None => demo_maf_state !! x
             end.
Proof.
  apply (Update_unknown_label (H := demoFloats) 3 demo_maf_state
           [("a", 9)]%string [("b", 3)]%string "c"%string 1).
  - exact demo_maf_state_wf.
  - cbn [fmap list_fmap fst]. apply (bool_decide_unpack _). vm_compute. exact I.
  - cbn [fmap list_fmap fst]. intros l Hl.
    apply list_elem_of_singleton in Hl as ->. vm_compute. eauto.
  - vm_compute. reflexivity.
Defined.

Section MAFConstruction.
Context {F : Type} `{Floats F}.


End MAFConstruction.

(** ** The payload of the collector *)

Lemma add_all_spec {F : Type} (datas : list (list F)) :
  ∀ p : ingest.CollectPayload F,
    ingest.Sensors (ingest.add_all p datas).1 = ingest.Sensors p
    ∧ ingest.Values (ingest.add_all p datas).1
      = ingest.Values p
        ++ filter (fun d => length d = length (ingest.Sensors p)) datas
    ∧ (ingest.add_all p datas).2
      = map (fun d => if decide (length (ingest.Sensors p) ≠ length d)
                      then Some (ingest.InvalidData (length d)
                                   (length (ingest.Sensors p)))
                      else None) datas.
Proof.
  induction datas as [|d datas IH]; intros p.
  - simpl. rewrite app_nil_r. auto.
  - cbn [ingest.add_all]. unfold ingest.AddData.
    destruct (decide (length (ingest.Sensors p) ≠ length d)) as [Hne|Heq];
      cbn beta iota zeta.
    + destruct (IH p) as (Hs & Hv & He).
      destruct (ingest.add_all p datas) as [p2 es]. cbn [fst snd] in *.
      split; [exact Hs|]. split.
      * rewrite Hv, filter_cons_False by congruence. reflexivity.
      * cbn [map]. rewrite decide_True by exact Hne. rewrite He. reflexivity.
    + set (p1 := ingest.mkCollectPayload _ _ _ _ _).
      destruct (IH p1) as (Hs & Hv & He).
      destruct (ingest.add_all p1 datas) as [p2 es]. cbn [fst snd] in *.
      subst p1. cbn [ingest.Sensors ingest.Values] in *.
      split; [exact Hs|]. split.
      * assert (Hd : length d = length (ingest.Sensors p)).
        { destruct (decide (length d = length (ingest.Sensors p)));
            [assumption|exfalso; apply Heq; congruence]. }
        rewrite Hv, filter_cons_True by exact Hd.
        rewrite <- app_assoc. reflexivity.
      * cbn [map]. rewrite decide_False by exact Heq. rewrite He. reflexivity.
Qed.

(** X19. [AddData] keeps a payload rectangular. If every row of values has
    one value for each sensor, so it is after any calls of [AddData]: the
    sensors are the same, the rows that were there are followed by the sets
    of measurements of the right length, in the order of the calls, and
    every other set is refused with an error and changes nothing. *)
Theorem AddData_keeps_rows {F : Type} (p : ingest.CollectPayload F)
    (datas : list (list F)) :
  Forall (fun row => length row = length (ingest.Sensors p))
    (ingest.Values p) ->
  ingest.Sensors (ingest.add_all p datas).1 = ingest.Sensors p
  ∧ Forall (fun row => length row = length (ingest.Sensors p))
      (ingest.Values (ingest.add_all p datas).1)
  ∧ ingest.Values (ingest.add_all p datas).1
    = ingest.Values p
      ++ filter (fun d => length d = length (ingest.Sensors p)) datas
  ∧ Forall2 (fun d e => e = None ↔ length d = length (ingest.Sensors p))
      datas (ingest.add_all p datas).2.
Proof.
  intros Hrows. destruct (add_all_spec datas p) as (Hs & Hv & He).
  split; [exact Hs|]. split; [|split; [exact Hv|]].
  - rewrite Hv. apply Forall_app. split; [exact Hrows|].
    apply Forall_forall. intros d Hd.
    apply list_elem_of_filter in Hd as [Hd _]. exact Hd.
  - rewrite He. clear. induction datas as [|d datas IH]; constructor; [|exact IH].
    case_decide; split; try discriminate; try congruence; auto.
Qed.

Lemma AddData_keeps_rows_witness :
  ingest.Sensors (ingest.add_all demo_payload [[4; 5; 6]; [7]; [8; 9; 10]]).1
  = ingest.Sensors demo_payload
  ∧ Forall (fun row => length row = length (ingest.Sensors demo_payload))
      (ingest.Values (ingest.add_all demo_payload [[4; 5; 6]; [7]; [8; 9; 10]]).1)
  ∧ ingest.Values (ingest.add_all demo_payload [[4; 5; 6]; [7]; [8; 9; 10]]).1
    = ingest.Values demo_payload
      ++ filter (fun d => length d = length (ingest.Sensors demo_payload))
           [[4; 5; 6]; [7]; [8; 9; 10]]
  ∧ Forall2 (fun d e => e = None ↔ length d = length (ingest.Sensors demo_payload))
      [[4; 5; 6]; [7]; [8; 9; 10]]
      (ingest.add_all demo_payload [[4; 5; 6]; [7]; [8; 9; 10]]).2.
Proof.
  apply (AddData_keeps_rows demo_payload [[4; 5; 6]; [7]; [8; 9; 10]]).
  repeat constructor.
Defined.

(** ** The range of the features *)

Lemma spread_byte (v : byte) :
  Z.lor (u8 v) (u32 (Z.shiftl (u8 v) 8)) = u8 v * 257.
Proof. destruct v; reflexivity. Qed.

Lemma premultiply_channel (v a : byte) :
  0 <= Z.shiftr (premultiply v a) 8 < 256.
Proof.
  pose proof (u8_range v) as Hv. pose proof (u8_range a) as Ha.
  unfold premultiply. rewrite spread_byte. unfold u32.
  rewrite Z.mod_small by nia.
  rewrite Z.shiftr_div_pow2 by lia.
  assert (0 <= u8 v * 257 * u8 a / 255 < 65536).
  { split; [apply Z.div_pos; nia|].
    apply Z.div_lt_upper_bound; nia. }
  split; [apply Z.div_pos; lia|].
  apply Z.div_lt_upper_bound; lia.
Qed.

Lemma rgb24_range (r g b : Z) :
  0 <= r < 256 -> 0 <= g < 256 -> 0 <= b < 256 -> 0 <= rgb24 r g b < 2 ^ 24.
Proof.
  intros Hr Hg Hb. unfold rgb24. rewrite !Z.shiftl_mul_pow2 by lia.
  apply lor_lt_pow2; [lia| |lia]. apply lor_lt_pow2; lia.
Qed.

Lemma pack_NRGBA_range (c : NRGBA) :
  0 <= pack_pixel (NRGBA_RGBA c) < 2 ^ 24.
Proof.
  unfold pack_pixel, NRGBA_RGBA.
  rewrite pack_bytes by apply premultiply_channel.
  apply rgb24_range; apply premultiply_channel.
Qed.

Lemma pack_Gray_range (y : byte) :
  0 <= pack_pixel (Gray_RGBA y) < 2 ^ 24.
Proof. rewrite pack_gray. apply rgb24_range; apply u8_range. Qed.

(** X20. Every feature the image classifier sends is a 24-bit value,
    whatever the image and the size asked for; and the colour of an NRGBA
    pixel is premultiplied by its alpha on the way, so a fully transparent
    pixel gives the feature 0 whatever its colour. *)
Theorem image_features_24bit `{Imaging} (mp : ModelParameters) (img : Image)
    (width height : nat) :
  Forall (fun f => 0 <= f < 2 ^ 24)
    (image_features width height (normalize mp img))
  ∧ ∀ r g b, pack_pixel (NRGBA_RGBA (mkNRGBA r g b x00)) = 0.
Proof.
  split.
  - apply Forall_forall. intros f Hf. unfold image_features in Hf.
    apply list_elem_of_In, in_flat_map in Hf as (y & _ & Hf).
    apply in_map_iff in Hf as (x & <- & _).
    destruct (normalize_type mp img) as [H3 H1].
    destruct (decide (ImageChannelCount mp = 3)) as [Hc|Hc].
    + destruct (H3 Hc) as [i ->]. cbn [At_RGBA].
      case_decide; apply pack_NRGBA_range.
    + destruct (H1 Hc) as [i ->]. cbn [At_RGBA].
      case_decide; apply pack_Gray_range.
  - intros r g b. unfold pack_pixel, NRGBA_RGBA, premultiply. cbn [cR cG cB cA].
    change (u8 x00) with 0. rewrite !Z.mul_0_r. reflexivity.
Qed.

